(** * tiny_rpc: the wire codec (package codec)

    A shallow embedding of [codec/io.go] (framing helpers) and of the client
    and server codecs, with the properties of the wire protocol proved over
    it.

    Conventions.
    - Go's unsigned integers are [N]; a conversion [uintW(x)] is written out
      as [x mod 2^W].
    - A [[]byte] is a [list byte].
    - An [io.Writer] and an [io.Reader] are modelled by a byte sink and a byte
      source that follow a finite script of call outcomes (short counts,
      errors) and behave like an in-memory buffer once the script is used up.
    - [encoding/binary] and [hash/crc32] are the Go standard library; their
      functions are transcribed from the library's reference code. *)

From Stdlib Require Import NArith ZArith Lia List String.
From Stdlib.Strings Require Import Byte.
From stdpp Require Import base option list gmap strings.

Local Open Scope N_scope.

(** ** Machine integers and bytes *)

Definition uint64 (x : N) : N := x mod 2 ^ 64.
Definition uint32 (x : N) : N := x mod 2 ^ 32.

(** [byte(x)]: the low eight bits of [x]. *)
Definition byte_of_N (x : N) : byte :=
  match Byte.of_N (x mod 256) with
  | Some b => b
  | None => x00
  end.

(** Largest value of Go's [int] on a 64-bit platform: the bound on [len]. *)
Definition MaxInt : N := 2 ^ 63 - 1.

(** ** Errors *)

(** Errors a transport can return from [Read], [Write] or [ReadByte].
    [NetErr] stands for every value that implements [net.Error]; its two
    fields are the results of [Timeout()] and [Temporary()]. *)
Inductive ioerr : Type :=
| EOF
| ErrUnexpectedEOF
| NetErr (timeout temporary : bool)
| IOFail (msg : string).

(** Errors the codec reports to the dispatcher.  The four sentinel values
    are the package variables of [codec] under the names the codecs use for
    them; errors of the header, compressor and serializer packages are
    carried with their message; [Panic] is a run-time panic of the Go
    program. *)
Inductive error : Type :=
| Transport (e : ioerr)
| errOverflow
| NotFoundCompressorError
| UnexpectedChecksumError
| CompressorTypeMismatchError
| InvalidSequenceError
| HeaderError (msg : string)
| CompressError (msg : string)
| SerializeError (msg : string)
| Panic (msg : string).

(** The type assertion [_, ok := err.(net.Error)] on a possibly nil error. *)
Definition is_net_Error (err : option ioerr) : bool :=
  match err with
  | Some (NetErr _ _) => true
  | _ => false
  end.

(** A transient transport condition (would-block, interrupted): a
    [net.Error] whose [Temporary()] is true. *)
Definition transient (e : ioerr) : bool :=
  match e with
  | NetErr _ temporary => temporary
  | _ => false
  end.

Definition is_EOF (e : ioerr) : bool :=
  match e with
  | EOF => true
  | _ => false
  end.

(** ** Transport model *)

(** One scripted call outcome: at most [fst] bytes are moved and [snd] is
    the error returned with them. *)
Definition step : Type := nat * option ioerr.

Record Writer : Type := mkWriter {
  written : list byte;
  wscript : list step
}.

Record Reader : Type := mkReader {
  unread : list byte;
  rscript : list step
}.

(** [w.Write(p)]: returns the count accepted and the error. *)
Definition Write (w : Writer) (p : list byte) : nat * option ioerr * Writer :=
  match wscript w with
  | [] => (length p, None, mkWriter (written w ++ p) [])
  | (k, e) :: sc =>
      let n := Nat.min k (length p) in
      (n, e, mkWriter (written w ++ take n p) sc)
  end.

(** [r.Read(p)] with [len(p) = n]: returns the bytes stored at the front of
    [p] and the error.  The end of the stream is [io.EOF]. *)
Definition Read (r : Reader) (n : nat) : list byte * option ioerr * Reader :=
  let '(k, e, sc) :=
    match rscript r with
    | [] => (n, None, [])
    | (k, e) :: sc => (k, e, sc)
    end in
  let chunk := take (Nat.min k n) (unread r) in
  let err :=
    match e, unread r with
    | None, [] => Some EOF
    | _, _ => e
    end in
  (chunk, err, mkReader (drop (Nat.min k n) (unread r)) sc).

(** [r.ReadByte()] of the [io.ByteReader] side of the reader. *)
Definition ReadByte (r : Reader) : byte * option ioerr * Reader :=
  match rscript r, unread r with
  | (_, Some e) :: sc, _ => (x00, Some e, mkReader (unread r) sc)
  | sc, [] => (x00, Some EOF, mkReader [] (tail sc))
  | sc, b :: bs => (b, None, mkReader bs (tail sc))
  end.

(** A writer that honours the [io.Writer] contract: a call that accepts
    fewer bytes than it was given returns an error. *)
Definition compliant (w : Writer) : Prop :=
  Forall (fun st : step => snd st <> None) (wscript w).

(** A reader none of whose scripted calls fails. *)
Definition error_free (r : Reader) : Prop :=
  Forall (fun st : step => snd st = None) (rscript r).

(** A reader whose scripted calls fail with [net.Error]s only. *)
Definition net_errors_only (r : Reader) : Prop :=
  Forall (fun st : step => snd st = None \/ is_net_Error (snd st) = true)
         (rscript r).

(** ** codec/io.go *)

(** The loop of [write]; [None] when the fuel runs out. *)
Fixpoint write_loop (fuel : nat) (w : Writer) (data : list byte) (index : nat)
  : option (option error * Writer) :=
  if (index <? length data)%nat then
    match fuel with
    | O => None
    | S fuel' =>
        let '(n, err, w') := Write w (drop index data) in
        if negb (is_net_Error err) then Some (Transport <$> err, w')
        else write_loop fuel' w' data (index + n)
    end
  else Some (None, w).

(** [write]: every iteration of the loop that does not return uses up one
    scripted call, so the fuel below is never exhausted
    (see [write_loop_total]). *)
Definition write (w : Writer) (data : list byte) : option error * Writer :=
  default (None, w) (write_loop (S (length (wscript w))) w data 0).

(** [data[index:]] after a [Read] stored [chunk] at its front. *)
Definition store (data : list byte) (index : nat) (chunk : list byte)
  : list byte :=
  take index data ++ chunk ++ drop (index + length chunk) data.

(** The loop of [read]; [None] when the fuel runs out. *)
Fixpoint read_loop (fuel : nat) (r : Reader) (data : list byte) (index : nat)
  : option (option error * list byte * Reader) :=
  if (index <? length data)%nat then
    match fuel with
    | O => None
    | S fuel' =>
        let '(chunk, err, r') := Read r (length data - index) in
        let data' := store data index chunk in
        match err with
        | Some e =>
            if negb (is_net_Error err) then Some (Some (Transport e), data', r')
            else read_loop fuel' r' data' (index + length chunk)
        | None => read_loop fuel' r' data' (index + length chunk)
        end
    end
  else Some (None, data, r).

(** [read]: returns the error and the buffer as the loop left it
    (see [read_loop_total] for the fuel). *)
Definition read (r : Reader) (data : list byte)
  : option error * list byte * Reader :=
  default (None, data, r)
          (read_loop (length (rscript r) + length data) r data 0).

(** The claim on [write] in the words of the specification: an error of
    the first [Write] call that is not a transient condition is returned. *)
Definition spec_write_propagates (w : Writer) (data : list byte) : Prop :=
  ∀ e, data ≠ [] → snd (fst (Write w data)) = Some e → transient e = false →
       fst (write w data) = Some (Transport e).

(** The claim on [read] in the words of the specification: reading stops
    at an error that is not a transient condition. *)
Definition spec_read_stops (r : Reader) (data : list byte) : Prop :=
  ∀ e, data ≠ [] → snd (fst (Read r (length data))) = Some e → transient e = false →
       fst (fst (read r data)) = Some (Transport e).

(** *** encoding/binary *)

Definition MaxVarintLen64 : N := 10.

(** [binary.PutUvarint]: the bytes stored in [buf[:n]]. *)
Fixpoint PutUvarint_loop (fuel : nat) (x : N) : list byte :=
  match fuel with
  | O => [byte_of_N x]
  | S fuel' =>
      if 0x80 <=? x
      then byte_of_N (N.lor (x mod 256) 0x80) :: PutUvarint_loop fuel' (N.shiftr x 7)
      else [byte_of_N x]
  end.

Definition PutUvarint (x : N) : list byte :=
  PutUvarint_loop (N.to_nat MaxVarintLen64 - 1) x.

(** [binary.ReadUvarint]: [n] iterations are left, [i] have been made. *)
Fixpoint ReadUvarint_loop (n : nat) (i s x : N) (r : Reader)
  : N * option error * Reader :=
  match n with
  | O => (x, Some errOverflow, r)
  | S n' =>
      let '(b, err, r') := ReadByte r in
      match err with
      | Some e =>
          if (0 <? i) && is_EOF e
          then (x, Some (Transport ErrUnexpectedEOF), r')
          else (x, Some (Transport e), r')
      | None =>
          if Byte.to_N b <? 0x80 then
            if (i =? MaxVarintLen64 - 1) && (1 <? Byte.to_N b)
            then (x, Some errOverflow, r')
            else (N.lor x (uint64 (N.shiftl (Byte.to_N b) s)), None, r')
          else
            ReadUvarint_loop n' (i + 1) (s + 7)
              (N.lor x (uint64 (N.shiftl (N.land (Byte.to_N b) 0x7f) s))) r'
      end
  end.

Definition ReadUvarint (r : Reader) : N * option error * Reader :=
  ReadUvarint_loop (N.to_nat MaxVarintLen64) 0 0 0 r.

(** *** Frames *)

Definition sendFrame (w : Writer) (data : list byte) : option error * Writer :=
  if (length data =? 0)%nat then
    write w (PutUvarint (uint64 0))
  else
    match write w (PutUvarint (uint64 (N.of_nat (length data)))) with
    | (Some e, w1) => (Some e, w1)
    | (None, w1) => write w1 data
    end.

Definition recvFrame (r : Reader) : list byte * option error * Reader :=
  let '(size, err, r1) := ReadUvarint r in
  match err with
  | Some e => ([], Some e, r1)
  | None =>
      if negb (size =? 0) then
        let '(err, data, r2) := read r1 (repeat x00 (N.to_nat size)) in
        match err with
        | Some e => ([], Some e, r2)
        | None => (data, None, r2)
        end
      else ([], None, r1)
  end.

(** *** hash/crc32 *)

Definition IEEE : N := 0xedb88320.

Definition crc_shift (crc : N) : N :=
  if N.testbit crc 0 then N.lxor (N.shiftr crc 1) IEEE else N.shiftr crc 1.

(** Entry [i] of the table built by [simplePopulateTable]. *)
Definition IEEETable (i : N) : N := Nat.iter 8 crc_shift i.

Definition crc_update (crc : N) (v : byte) : N :=
  N.lxor (IEEETable (N.lxor (crc mod 256) (Byte.to_N v))) (N.shiftr crc 8).

Definition ChecksumIEEE (p : list byte) : N :=
  N.lxor (fold_left crc_update p 0xffffffff) 0xffffffff.

(** The wire image of a frame as the protocol describes it:
    [VARINT(len) | bytes]. *)
Definition frame (data : list byte) : list byte :=
  PutUvarint (uint64 (N.of_nat (length data))) ++ data.

(** The bytes that follow the first frame a writer put out between the
    states [before] and [after], as a peer reads them. *)
Definition wire_body (before after : Writer) : option (list byte) :=
  match recvFrame (mkReader (drop (length (written before)) (written after)) []) with
  | (_, None, r) => Some (unread r)
  | (_, Some _, _) => None
  end.

(** ** Collaborating packages *)

(** *** net/rpc *)

Module Request.
Record t : Type := mk {
  ServiceMethod : string;
  Seq : N
}.
End Request.

Module Response.
Record t : Type := mk {
  ServiceMethod : string;
  Seq : N;
  Error : string
}.
End Response.

(** *** header *)

(** Modelled from the spec: the struct [header.RequestHeader] and its
    methods [ResetHeader] and [GetCompressType] (package [header] is not
    part of the sources at hand).  Fields: id (u64), method, request_len
    (u32), compress_type (u16), checksum (u32); a reset zeroes every field
    and clears the string. *)
Module RequestHeader.
Record t : Type := mk {
  ID : N;
  Method : string;
  RequestLen : N;
  CompressType : N;
  Checksum : N
}.
Definition zero : t := mk 0 EmptyString 0 0 0.
Definition ResetHeader (h : t) : t := zero.
Definition GetCompressType (h : t) : N := CompressType h.
End RequestHeader.

(** Modelled from the spec: the struct [header.ResponseHeader], as
    [RequestHeader] with [error] in place of [method]. *)
Module ResponseHeader.
Record t : Type := mk {
  ID : N;
  Error : string;
  ResponseLen : N;
  CompressType : N;
  Checksum : N
}.
Definition zero : t := mk 0 EmptyString 0 0 0.
Definition ResetHeader (h : t) : t := zero.
Definition GetCompressType (h : t) : N := CompressType h.
End ResponseHeader.

(** The binary encoding of the headers is a parameter of the codecs:
    [Marshal] gives the bytes, [Unmarshal] fills the receiver from bytes
    and may fail with a message. *)
Record HeaderCoding (H : Type) : Type := mkHeaderCoding {
  Marshal : H -> list byte;
  Unmarshal : H -> list byte -> option string * H
}.
Arguments Marshal {H} _ _.
Arguments Unmarshal {H} _ _ _.

(** *** compressor *)

(** The interface [compressor.Compressor]; a result is the bytes ([inl]) or
    the message of the error ([inr]). *)
Record Compressor : Type := mkCompressor {
  Zip : list byte -> list byte + string;
  Unzip : list byte -> list byte + string
}.

(** *** serializer *)

(** The interface [serializer.Serializer] over payload values [V];
    [Unmarshal] receives the target and returns it filled. *)
Module Serializer.
Record t (V : Type) : Type := mk {
  Marshal : V -> list byte + string;
  Unmarshal : list byte -> V -> V + string
}.
Arguments Marshal {V} _ _.
Arguments Unmarshal {V} _ _ _.
End Serializer.

(** ** The client codec *)

Module clientCodec.
Section WithRegistry.
Context {V : Type}.
(** The registry [compressor.Compressors]. *)
Variable Compressors : gmap N Compressor.
Variable requestCoding : HeaderCoding RequestHeader.t.
Variable responseCoding : HeaderCoding ResponseHeader.t.

Record t : Type := mk {
  reader : Reader;
  writer : Writer;
  compressor : N;
  serializer : Serializer.t V;
  response : ResponseHeader.t;
  pending : gmap N string
}.

Definition set_reader (c : t) (r : Reader) : t :=
  mk r (writer c) (compressor c) (serializer c) (response c) (pending c).
Definition set_writer (c : t) (w : Writer) : t :=
  mk (reader c) w (compressor c) (serializer c) (response c) (pending c).
Definition set_response (c : t) (h : ResponseHeader.t) : t :=
  mk (reader c) (writer c) (compressor c) (serializer c) h (pending c).
Definition set_pending (c : t) (m : gmap N string) : t :=
  mk (reader c) (writer c) (compressor c) (serializer c) (response c) m.

Definition NewClientCodec (r : Reader) (w : Writer) (compressType : N)
    (serializer : Serializer.t V) : t :=
  mk r w compressType serializer ResponseHeader.zero ∅.

Definition WriteRequest (c : t) (r : Request.t) (param : V)
  : option error * t :=
  let c := set_pending c (<[Request.Seq r := Request.ServiceMethod r]> (pending c)) in
  match Compressors !! compressor c with
  | None => (Some NotFoundCompressorError, c)
  | Some comp =>
      match Serializer.Marshal (serializer c) param with
      | inr e => (Some (SerializeError e), c)
      | inl reqBody =>
          match Zip comp reqBody with
          | inr e => (Some (CompressError e), c)
          | inl compressedReqBody =>
              let h := RequestHeader.mk
                         (Request.Seq r)
                         (Request.ServiceMethod r)
                         (uint32 (N.of_nat (length compressedReqBody)))
                         (compressor c)
                         (ChecksumIEEE compressedReqBody) in
              match sendFrame (writer c) (Marshal requestCoding h) with
              | (Some e, w) => (Some e, set_writer c w)
              | (None, w) =>
                  match write w compressedReqBody with
                  | (Some e, w') => (Some e, set_writer c w')
                  | (None, w') => (None, set_writer c w')
                  end
              end
          end
      end
  end.

Definition ReadResponseHeader (c : t) (resp : Response.t)
  : option error * Response.t * t :=
  let c := set_response c (ResponseHeader.ResetHeader (response c)) in
  let '(data, err, r) := recvFrame (reader c) in
  let c := set_reader c r in
  match err with
  | Some e => (Some e, resp, c)
  | None =>
      let '(err, h) := Unmarshal responseCoding (response c) data in
      let c := set_response c h in
      match err with
      | Some e => (Some (HeaderError e), resp, c)
      | None =>
          let Seq := ResponseHeader.ID h in
          let ServiceMethod := default EmptyString (pending c !! Seq) in
          (None,
           Response.mk ServiceMethod Seq (ResponseHeader.Error h),
           set_pending c (delete Seq (pending c)))
      end
  end.

(** The claim on an unknown sequence number in the words of the
    specification: a decoded header whose id is not pending is an error. *)
Definition spec_unknown_seq_rejected (c : t) (resp : Response.t) : Prop :=
  ∀ data r h,
    recvFrame (reader c) = (data, None, r) →
    Unmarshal responseCoding ResponseHeader.zero data = (None, h) →
    pending c !! ResponseHeader.ID h = None →
    fst (fst (ReadResponseHeader c resp)) ≠ None.

(** The buffer [make([]byte, c.response.ResponseLen)]. *)
Definition respBuffer (c : t) : list byte :=
  repeat x00 (N.to_nat (ResponseHeader.ResponseLen (response c))).

(** [param] is [None] for a nil target; the second component of the result
    is the target as the call leaves it. *)
Definition ReadResponseBody (c : t) (param : option V)
  : option error * option V * t :=
  match param with
  | None =>
      if negb (ResponseHeader.ResponseLen (response c) =? 0) then
        let '(err, _, r) := read (reader c) (respBuffer c) in
        (err, None, set_reader c r)
      else (None, None, c)
  | Some target =>
      let '(err, respBody, r) := read (reader c) (respBuffer c) in
      let c := set_reader c r in
      match err with
      | Some e => (Some e, param, c)
      | None =>
          if negb (ResponseHeader.Checksum (response c) =? 0)
             && negb (ChecksumIEEE respBody =? ResponseHeader.Checksum (response c))
          then (Some UnexpectedChecksumError, param, c)
          else if negb (ResponseHeader.GetCompressType (response c) =? compressor c)
          then (Some CompressorTypeMismatchError, param, c)
          else
            match Compressors !! ResponseHeader.GetCompressType (response c) with
            | None => (Some (Panic "nil pointer dereference"), param, c)
            | Some comp =>
                match Unzip comp respBody with
                | inr e => (Some (CompressError e), param, c)
                | inl resp =>
                    match Serializer.Unmarshal (serializer c) resp target with
                    | inr e => (Some (SerializeError e), param, c)
                    | inl v => (None, Some v, c)
                    end
                end
            end
      end
  end.

(** The requests a dispatcher writes on one connection, in order, whatever
    each [WriteRequest] returns. *)
Fixpoint writeAll (c : t) (calls : list (Request.t * V)) : t :=
  match calls with
  | [] => c
  | (r, param) :: calls' => writeAll (snd (WriteRequest c r param)) calls'
  end.

End WithRegistry.
End clientCodec.

(** ** The server codec *)

Module serverCodec.
Section WithRegistry.
Context {V : Type}.
Variable Compressors : gmap N Compressor.
Variable requestCoding : HeaderCoding RequestHeader.t.
Variable responseCoding : HeaderCoding ResponseHeader.t.

Record reqCtx : Type := mkReqCtx {
  requestId : N;
  compressType : N
}.

Record t : Type := mk {
  reader : Reader;
  writer : Writer;
  request : RequestHeader.t;
  serializer : Serializer.t V;
  seq : N;
  pending : gmap N reqCtx
}.

Definition set_reader (s : t) (r : Reader) : t :=
  mk r (writer s) (request s) (serializer s) (seq s) (pending s).
Definition set_writer (s : t) (w : Writer) : t :=
  mk (reader s) w (request s) (serializer s) (seq s) (pending s).
Definition set_request (s : t) (h : RequestHeader.t) : t :=
  mk (reader s) (writer s) h (serializer s) (seq s) (pending s).
Definition set_seq (s : t) (n : N) : t :=
  mk (reader s) (writer s) (request s) (serializer s) n (pending s).
Definition set_pending (s : t) (m : gmap N reqCtx) : t :=
  mk (reader s) (writer s) (request s) (serializer s) (seq s) m.

Definition NewServerCodec (r : Reader) (w : Writer)
    (serializer : Serializer.t V) : t :=
  mk r w RequestHeader.zero serializer 0 ∅.

Definition ReadRequestHeader (s : t) (req : Request.t)
  : option error * Request.t * t :=
  let s := set_request s (RequestHeader.ResetHeader (request s)) in
  let '(data, err, r) := recvFrame (reader s) in
  let s := set_reader s r in
  match err with
  | Some e => (Some e, req, s)
  | None =>
      let '(err, h) := Unmarshal requestCoding (request s) data in
      let s := set_request s h in
      match err with
      | Some e => (Some (HeaderError e), req, s)
      | None =>
          let s := set_seq s (uint64 (seq s + 1)) in
          let s := set_pending s
                     (<[seq s := mkReqCtx (RequestHeader.ID h)
                                          (RequestHeader.GetCompressType h)]>
                        (pending s)) in
          (None, Request.mk (RequestHeader.Method h) (seq s), s)
      end
  end.

(** The buffer [make([]byte, s.request.RequestLen)]. *)
Definition reqBuffer (s : t) : list byte :=
  repeat x00 (N.to_nat (RequestHeader.RequestLen (request s))).

Definition ReadRequestBody (s : t) (param : option V)
  : option error * option V * t :=
  match param with
  | None =>
      if negb (RequestHeader.RequestLen (request s) =? 0) then
        let '(err, _, r) := read (reader s) (reqBuffer s) in
        (err, None, set_reader s r)
      else (None, None, s)
  | Some target =>
      let '(err, reqBody, r) := read (reader s) (reqBuffer s) in
      let s := set_reader s r in
      match err with
      | Some e => (Some e, param, s)
      | None =>
          if negb (RequestHeader.Checksum (request s) =? 0)
             && negb (ChecksumIEEE reqBody =? RequestHeader.Checksum (request s))
          then (Some UnexpectedChecksumError, param, s)
          else
            match Compressors !! RequestHeader.GetCompressType (request s) with
            | None => (Some NotFoundCompressorError, param, s)
            | Some comp =>
                match Unzip comp reqBody with
                | inr e => (Some (CompressError e), param, s)
                | inl req =>
                    match Serializer.Unmarshal (serializer s) req target with
                    | inr e => (Some (SerializeError e), param, s)
                    | inl v => (None, Some v, s)
                    end
                end
            end
      end
  end.

(** The claim on an unknown compressor in the words of the specification:
    a header whose compress type is not registered makes the body read
    raise [NotFoundCompressorError]. *)
Definition spec_unknown_compressor_rejected (s : t) (param : option V) : Prop :=
  Compressors !! RequestHeader.GetCompressType (request s) = None →
  fst (fst (ReadRequestBody s param)) = Some NotFoundCompressorError.

(** The header [WriteResponse] fills in for the request context [ctx]. *)
Definition responseHeader (ctx : reqCtx) (response : Response.t)
    (compressedRespBody : list byte) : ResponseHeader.t :=
  ResponseHeader.mk
    (requestId ctx)
    (Response.Error response)
    (uint32 (N.of_nat (length compressedRespBody)))
    (compressType ctx)
    (ChecksumIEEE compressedRespBody).

Definition WriteResponse (s : t) (response : Response.t) (param : option V)
  : option error * t :=
  match pending s !! Response.Seq response with
  | None => (Some InvalidSequenceError, s)
  | Some ctx =>
      let s := set_pending s (delete (Response.Seq response) (pending s)) in
      let param :=
        if negb (String.eqb (Response.Error response) EmptyString)
        then None else param in
      match Compressors !! compressType ctx with
      | None => (Some NotFoundCompressorError, s)
      | Some comp =>
          let marshalled :=
            match param with
            | Some v => Serializer.Marshal (serializer s) v
            | None => inl []
            end in
          match marshalled with
          | inr e => (Some (SerializeError e), s)
          | inl respBody =>
              match Zip comp respBody with
              | inr e => (Some (CompressError e), s)
              | inl compressedRespBody =>
                  let h := responseHeader ctx response compressedRespBody in
                  match sendFrame (writer s) (Marshal responseCoding h) with
                  | (Some e, w) => (Some e, set_writer s w)
                  | (None, w) =>
                      match write w compressedRespBody with
                      | (Some e, w') => (Some e, set_writer s w')
                      | (None, w') => (None, set_writer s w')
                      end
                  end
              end
          end
      end
  end.

(** The claim on an error reply in the words of the specification: the
    body written after the header frame is empty. *)
Definition spec_error_body_empty (s : t) (response : Response.t)
    (param : option V) : Prop :=
  ∀ s', WriteResponse s response param = (None, s') →
        Response.Error response ≠ EmptyString →
        wire_body (writer s) (writer s') = Some [].

(** The calls a dispatcher makes on one connection. *)
Inductive call : Type :=
| CallReadRequestHeader (request : Request.t)
| CallReadRequestBody (param : option V)
| CallWriteResponse (response : Response.t) (param : option V).

(** One call: the state after it and, for a [ReadRequestHeader] that
    returned nil, the sequence number it assigned. *)
Definition exec (s : t) (c : call) : option N * t :=
  match c with
  | CallReadRequestHeader request =>
      match ReadRequestHeader s request with
      | (None, request', s') => (Some (Request.Seq request'), s')
      | (Some _, _, s') => (None, s')
      end
  | CallReadRequestBody param => (None, snd (ReadRequestBody s param))
  | CallWriteResponse response param => (None, snd (WriteResponse s response param))
  end.

(** A run of calls: the sequence numbers assigned, in order. *)
Fixpoint run (s : t) (calls : list call) : list N * t :=
  match calls with
  | [] => ([], s)
  | c :: calls' =>
      let '(assigned, s1) := exec s c in
      let '(rest, s2) := run s1 calls' in
      (match assigned with Some n => n :: rest | None => rest end, s2)
  end.

End WithRegistry.
End serverCodec.

(** ** Fixtures: concrete collaborators for the examples *)

Module Fixture.

(** Modelled from the spec: the [raw] compressor of the registry, the
    identity function. *)
Definition Raw : Compressor := mkCompressor (fun b => inl b) (fun b => inl b).

(** A compressor that frames its input, as gzip does: [Zip] puts the two
    magic bytes in front, [Unzip] takes them off. *)
Definition Framed : Compressor :=
  mkCompressor
    (fun b => inl (x1f :: x8b :: b))
    (fun b =>
       match b with
       | x1f :: x8b :: b' => inl b'
       | _ => inr "invalid header"%string
       end).

(** Modelled from the spec: the registry [compressor.Compressors], with
    tag 0 for raw and tag 1 for the framing compressor. *)
Definition Compressors : gmap N Compressor := <[0 := Raw]> (<[1 := Framed]> ∅).

(** A serializer of byte strings. *)
Definition Bytes : Serializer.t (list byte) :=
  Serializer.mk (list byte) (fun v => inl v) (fun data _ => inl data).

(** Little-endian encoding of [x] on [k] bytes, and its inverse. *)
Fixpoint le (k : nat) (x : N) : list byte :=
  match k with
  | O => []
  | S k' => byte_of_N x :: le k' (x / 256)
  end.

Definition le_decode (bs : list byte) : N :=
  fold_right (fun b acc => Byte.to_N b + 256 * acc) 0 bs.

(** Modelled from the spec: the layout of a header (package [header] is not
    part of the sources at hand),
    [id:u64 | text_len:u32 | text | body_len:u32 | compress_type:u16 | checksum:u32],
    all integers little-endian. *)
Definition marshal (id : N) (text : string) (len ct sum : N) : list byte :=
  le 8 id ++ le 4 (N.of_nat (String.length text)) ++ list_byte_of_string text
     ++ le 4 len ++ le 2 ct ++ le 4 sum.

Definition unmarshal {H : Type} (mk : N -> string -> N -> N -> N -> H)
    (h : H) (data : list byte) : option string * H :=
  let n := N.to_nat (le_decode (take 4 (drop 8 data))) in
  let rest := drop (12 + n) data in
  if (length rest =? 10)%nat then
    (None,
     mk (le_decode (take 8 data))
        (string_of_list_byte (take n (drop 12 data)))
        (le_decode (take 4 rest))
        (le_decode (take 2 (drop 4 rest)))
        (le_decode (drop 6 rest)))
  else (Some "invalid header"%string, h).

Definition requestCoding : HeaderCoding RequestHeader.t :=
  mkHeaderCoding _
    (fun h => marshal (RequestHeader.ID h) (RequestHeader.Method h)
                      (RequestHeader.RequestLen h) (RequestHeader.CompressType h)
                      (RequestHeader.Checksum h))
    (unmarshal RequestHeader.mk).

Definition responseCoding : HeaderCoding ResponseHeader.t :=
  mkHeaderCoding _
    (fun h => marshal (ResponseHeader.ID h) (ResponseHeader.Error h)
                      (ResponseHeader.ResponseLen h) (ResponseHeader.CompressType h)
                      (ResponseHeader.Checksum h))
    (unmarshal ResponseHeader.mk).

(** A transport that accepts and delivers everything at once. *)
Definition sink : Writer := mkWriter [] [].
Definition source (bs : list byte) : Reader := mkReader bs [].

(** A [net.Error] that is neither a timeout nor temporary, such as the
    [*net.OpError] of a closed connection. *)
Definition closed : ioerr := NetErr false false.

(** A client configured with the unregistered tag 999. *)
Definition misconfigured : clientCodec.t :=
  clientCodec.NewClientCodec (source []) sink 999 Bytes.

(** A client with no call in flight whose stream holds a response with
    id 7, a one-byte raw body and its checksum. *)
Definition reply (sum : N) (ct : N) : list byte :=
  frame (Marshal responseCoding (ResponseHeader.mk 7 EmptyString 1 ct sum)) ++ [x2a].

Definition idle (sum ct : N) : clientCodec.t :=
  clientCodec.NewClientCodec (source (reply sum ct)) sink 0 Bytes.

(** The same client once it has read the header. *)
Definition at_body (sum ct : N) : clientCodec.t :=
  snd (clientCodec.ReadResponseHeader responseCoding (idle sum ct)
         (Response.mk EmptyString 0 EmptyString)).


(** A request with id 7 for [Arith.Multiply], a one-byte body, compress
    type [ct] and checksum [sum]. *)
Definition call_bytes (sum ct : N) : list byte :=
  frame (Marshal requestCoding
           (RequestHeader.mk 7 "Arith.Multiply" 1 ct sum)) ++ [x2a].

(** A server on a fresh connection that holds the given bytes. *)
Definition listening (bs : list byte) : serverCodec.t :=
  serverCodec.NewServerCodec (source bs) sink Bytes.

(** The same server once it has read the header of its first request. *)
Definition at_request (sum ct : N) : serverCodec.t :=
  snd (serverCodec.ReadRequestHeader requestCoding (listening (call_bytes sum ct))
         (Request.mk EmptyString 0)).

(** A dispatcher that serves two requests in turn. *)
Definition two_calls : list (serverCodec.call (V:=list byte)) :=
  [serverCodec.CallReadRequestHeader (Request.mk EmptyString 0);
   serverCodec.CallReadRequestBody (Some []);
   serverCodec.CallWriteResponse (Response.mk "Arith.Multiply" 1 EmptyString) (Some [x2a]);
   serverCodec.CallReadRequestHeader (Request.mk EmptyString 0);
   serverCodec.CallReadRequestBody None;
   serverCodec.CallWriteResponse (Response.mk "Arith.Multiply" 2 "no such method") None].

(** A client that compresses with the framing compressor, before its
    first call, reading from the given bytes. *)
Definition caller (bs : list byte) : clientCodec.t :=
  clientCodec.NewClientCodec (source bs) sink 1 Bytes.

(** The call [Arith.Multiply] with sequence number 7. *)
Definition multiply : Request.t := Request.mk "Arith.Multiply" 7.

(** What [caller] puts on the wire for [multiply] with a two-byte argument. *)
Definition multiply_wire : list byte :=
  written (clientCodec.writer
             (snd (clientCodec.WriteRequest Compressors requestCoding
                     (caller []) multiply [x07; x06]))).

End Fixture.

(** * Properties *)

(** ** Bytes *)

Lemma to_N_byte_of_N (x : N) : Byte.to_N (byte_of_N x) = x mod 256.
Proof.
  unfold byte_of_N.
  destruct (Byte.of_N (x mod 256)) as [b|] eqn:E.
  - by apply Byte.to_of_N.
  - apply Byte.of_N_None_iff in E.
    pose proof (N.mod_upper_bound x 256). lia.
Qed.

(** ** [write] *)

Lemma write_loop_total (fuel : nat) (w : Writer) (data : list byte) (index : nat) :
  (length (wscript w) < fuel)%nat → is_Some (write_loop fuel w data index).
Proof.
  revert w index. induction fuel as [|fuel IH]; intros w index Hf; [lia|].
  simpl. destruct (index <? length data)%nat; [|by eexists].
  unfold Write. destruct (wscript w) as [|[k e] sc] eqn:Hsc; simpl.
  - by eexists.
  - destruct (is_net_Error e); simpl; [|by eexists].
    apply IH. simpl in *. lia.
Qed.

Lemma write_unfold (w : Writer) (data : list byte) :
  write_loop (S (length (wscript w))) w data 0 = Some (write w data).
Proof.
  unfold write.
  assert (is_Some (write_loop (S (length (wscript w))) w data 0)) as [x ->]
    by (apply write_loop_total; lia).
  done.
Qed.

(** On a contract-abiding writer a nil result means the rest of the
    buffer went out. *)
Lemma write_loop_written (fuel : nat) (w w' : Writer) (data : list byte) (index : nat) :
  compliant w →
  write_loop fuel w data index = Some (None, w') →
  written w' = written w ++ drop index data ∧ compliant w'.
Proof.
  revert w index. induction fuel as [|fuel IH]; intros w index Hc; simpl.
  - destruct (index <? length data)%nat eqn:Hlt; [done|].
    intros [= <-]. apply Nat.ltb_ge in Hlt.
    rewrite drop_ge by done. by rewrite app_nil_r.
  - destruct (index <? length data)%nat eqn:Hlt.
    + unfold Write, compliant in *.
      destruct (wscript w) as [|[k e] sc] eqn:Hsc; simpl.
      * intros [= <-]. simpl. split; [done|]. by constructor.
      * inversion Hc as [|? ? He Hc']; subst. simpl in He.
        destruct e as [e|]; [|done].
        destruct (is_net_Error (Some e)); simpl; [|done].
        intros Hrec. apply IH in Hrec as [-> ?]; [|done]. simpl.
        split; [|done].
        rewrite <- app_assoc. f_equal.
        rewrite <- drop_drop. apply take_drop.
    + intros [= <-]. apply Nat.ltb_ge in Hlt.
      rewrite drop_ge by done. by rewrite app_nil_r.
Qed.

Lemma write_written (w w' : Writer) (data : list byte) :
  compliant w → write w data = (None, w') →
  written w' = written w ++ data ∧ compliant w'.
Proof.
  intros Hc Hw. pose proof (write_unfold w data) as Hu. rewrite Hw in Hu.
  by apply write_loop_written in Hu.
Qed.

(** ** [read] *)

Lemma Read_inv (r : Reader) (n : nat) :
  ∃ m, (m ≤ n)%nat ∧
       fst (fst (Read r n)) = take m (unread r) ∧
       unread (snd (Read r n)) = drop m (unread r) ∧
       rscript (snd (Read r n)) = tail (rscript r) ∧
       (rscript r = [] → m = n).
Proof.
  unfold Read. destruct (rscript r) as [|[k e] sc]; simpl.
  - exists n. rewrite Nat.min_id. done.
  - exists (Nat.min k n). repeat split; try done. lia.
Qed.

Lemma Read_err (r : Reader) (n : nat) :
  snd (fst (Read r n)) =
    match head (rscript r) with
    | Some (_, Some e) => Some e
    | _ => match unread r with [] => Some EOF | _ => None end
    end.
Proof.
  unfold Read. by destruct (rscript r) as [|[k [e|]] sc].
Qed.

Lemma store_length (data : list byte) (index : nat) (chunk : list byte) :
  (index + length chunk ≤ length data)%nat →
  length (store data index chunk) = length data.
Proof.
  intros H. unfold store. rewrite !length_app, length_take, length_drop. lia.
Qed.

Lemma take_store (data : list byte) (index : nat) (chunk : list byte) :
  (index ≤ length data)%nat →
  take (index + length chunk) (store data index chunk) = take index data ++ chunk.
Proof.
  intros H. unfold store. rewrite app_assoc.
  apply take_app_length'. rewrite length_app, length_take. lia.
Qed.

Lemma read_loop_total (fuel : nat) (r : Reader) (data : list byte) (index : nat) :
  (index ≤ length data)%nat →
  (length (rscript r) + (length data - index) ≤ fuel)%nat →
  is_Some (read_loop fuel r data index).
Proof.
  revert r data index. induction fuel as [|fuel IH]; intros r data index Hi Hf; simpl.
  - destruct (index <? length data)%nat eqn:Hlt; [|by eexists].
    apply Nat.ltb_lt in Hlt. lia.
  - destruct (index <? length data)%nat eqn:Hlt; [|by eexists].
    apply Nat.ltb_lt in Hlt.
    destruct (Read_inv r (length data - index)) as (m & Hm & Hchunk & Hun & Hsc & Hdef).
    pose proof (Read_err r (length data - index)) as Herr.
    destruct (Read r (length data - index)) as [[chunk err] r1]. simpl in *. subst chunk.
    assert (Hlen : (index + length (take m (unread r)) ≤ length data)%nat)
      by (rewrite length_take; lia).
    destruct (rscript r) as [|st sc] eqn:Hr.
    + simpl in Herr. rewrite (Hdef eq_refl) in *.
      destruct (unread r) as [|b bs] eqn:Hu; subst err; simpl; [by eexists|].
      apply IH; rewrite ?store_length; try lia.
      rewrite Hsc. simpl. rewrite length_take. simpl. lia.
    + assert (is_Some (read_loop fuel r1 (store data index (take m (unread r)))
                                 (index + length (take m (unread r))))).
      { apply IH; rewrite ?store_length; try lia.
        rewrite Hsc. simpl in *. lia. }
      destruct err as [e|]; [|done].
      destruct (is_net_Error (Some e)); simpl; [done|by eexists].
Qed.

Lemma read_unfold (r : Reader) (data : list byte) :
  read_loop (length (rscript r) + length data) r data 0 = Some (read r data).
Proof.
  unfold read.
  assert (is_Some (read_loop (length (rscript r) + length data) r data 0)) as [x ->]
    by (apply read_loop_total; lia).
  done.
Qed.

(** Whatever the outcome, the loop takes a prefix of the stream that fits
    the rest of the buffer; on a nil result it is the whole rest. *)
Lemma read_loop_consumed (fuel : nat) (r r' : Reader) (data data' : list byte)
    (index : nat) (err : option error) :
  (index ≤ length data)%nat →
  read_loop fuel r data index = Some (err, data', r') →
  ∃ got, unread r = got ++ unread r' ∧
         (index + length got ≤ length data)%nat ∧
         (err = None → data' = take index data ++ got ∧
                       (index + length got = length data)%nat).
Proof.
  revert r data index. induction fuel as [|fuel IH]; intros r data index Hi; simpl.
  - destruct (index <? length data)%nat eqn:Hlt; [done|].
    apply Nat.ltb_ge in Hlt. intros [= <- <- <-].
    exists []. simpl. rewrite app_nil_r, take_ge by lia. repeat split; lia.
  - destruct (index <? length data)%nat eqn:Hlt.
    + apply Nat.ltb_lt in Hlt.
      destruct (Read_inv r (length data - index)) as (m & Hm & Hchunk & Hun & _).
      destruct (Read r (length data - index)) as [[chunk e] r1]. simpl in *.
      assert (Hlen : (index + length chunk ≤ length data)%nat)
        by (subst chunk; rewrite length_take; lia).
      assert (Hrec : read_loop fuel r1 (store data index chunk) (index + length chunk)
                     = Some (err, data', r') →
              ∃ got, unread r = got ++ unread r' ∧
                     (index + length got ≤ length data)%nat ∧
                     (err = None → data' = take index data ++ got ∧
                                   (index + length got = length data)%nat)).
      { intros H. apply IH in H as (got & Hgot & Hle & Hok);
          [|by rewrite store_length].
        rewrite store_length in * by done.
        exists (chunk ++ got). rewrite length_app.
        split; [|split; [lia|]].
        - rewrite <- app_assoc, <- Hgot, Hun, Hchunk. by rewrite take_drop.
        - intros He. destruct (Hok He) as [-> ?].
          rewrite take_store by done. rewrite <- app_assoc. split; [done|lia]. }
      destruct e as [e|]; [|done].
      destruct (is_net_Error (Some e)); simpl; [done|].
      intros [= <- <- <-]. exists chunk. split; [|split; [done|done]].
      rewrite Hun, Hchunk. by rewrite take_drop.
    + apply Nat.ltb_ge in Hlt. intros [= <- <- <-].
      exists []. simpl. rewrite app_nil_r, take_ge by lia. repeat split; lia.
Qed.

(** [read] never takes more than the buffer holds, and on a nil result it
    has taken exactly the buffer. *)
Lemma read_consumed (r r' : Reader) (data data' : list byte) (err : option error) :
  read r data = (err, data', r') →
  ∃ got, unread r = got ++ unread r' ∧ (length got ≤ length data)%nat ∧
         (err = None → data' = got ∧ length got = length data).
Proof.
  intros H. pose proof (read_unfold r data) as Hu. rewrite H in Hu.
  apply read_loop_consumed in Hu as (got & ? & ? & Hok); [|lia].
  exists got. split; [done|]. split; [lia|].
  intros He. destruct (Hok He) as [-> ?]. by rewrite take_0.
Qed.

(** A stream that holds the bytes and fails with [net.Error]s only fills
    the buffer. *)
Lemma read_loop_supplied (fuel : nat) (r : Reader) (data : list byte) (index : nat) :
  net_errors_only r →
  (index ≤ length data)%nat →
  (length data - index ≤ length (unread r))%nat →
  (length (rscript r) + (length data - index) ≤ fuel)%nat →
  ∃ data' r', read_loop fuel r data index = Some (None, data', r') ∧
              net_errors_only r'.
Proof.
  revert r data index. induction fuel as [|fuel IH]; intros r data index Hn Hi Hu Hf; simpl.
  - destruct (index <? length data)%nat eqn:Hlt; [|by eauto].
    apply Nat.ltb_lt in Hlt. lia.
  - destruct (index <? length data)%nat eqn:Hlt; [|by eauto].
    apply Nat.ltb_lt in Hlt.
    destruct (Read_inv r (length data - index)) as (m & Hm & Hchunk & Hun & Hsc & Hdef).
    pose proof (Read_err r (length data - index)) as Herr.
    destruct (Read r (length data - index)) as [[chunk e] r1]. simpl in *. subst chunk.
    assert (Hlen : length (take m (unread r)) = m) by (rewrite length_take; lia).
    assert (Hn1 : net_errors_only r1).
    { unfold net_errors_only in *. rewrite Hsc.
      destruct (rscript r); simpl; [constructor|by inversion Hn]. }
    assert (Hrec : ∃ data' r',
               read_loop fuel r1 (store data index (take m (unread r)))
                         (index + length (take m (unread r)))
               = Some (None, data', r') ∧ net_errors_only r').
    { apply IH; rewrite ?store_length, ?Hlen, ?Hun, ?length_drop; try done; try lia.
      rewrite Hsc. destruct (rscript r) as [|st sc] eqn:Hr; simpl in *; [|lia].
      rewrite (Hdef eq_refl). lia. }
    destruct e as [e|]; [|done].
    destruct (is_net_Error (Some e)) eqn:Hnet; simpl; [done|].
    exfalso.
    destruct (rscript r) as [|[k [e'|]] sc] eqn:Hr; simpl in Herr.
    + destruct (unread r); simpl in *; [lia|done].
    + injection Herr as ->. unfold net_errors_only in Hn. rewrite Hr in Hn.
      inversion Hn as [|? ? [?|He] ?]; subst; simpl in *; [done|congruence].
    + destruct (unread r); simpl in *; [lia|done].
Qed.

Lemma read_supplied (r : Reader) (data : list byte) :
  net_errors_only r → (length data ≤ length (unread r))%nat →
  ∃ r', read r data = (None, take (length data) (unread r), r') ∧
        unread r' = drop (length data) (unread r) ∧ net_errors_only r'.
Proof.
  intros Hn Hu.
  destruct (read_loop_supplied (length (rscript r) + length data) r data 0)
    as (data' & r' & Hrun & Hn'); try done; try lia.
  rewrite read_unfold in Hrun. injection Hrun as Hrun.
  destruct (read_consumed _ _ _ _ _ Hrun) as (got & Hgot & _ & Hok).
  destruct (Hok eq_refl) as [-> Hlen].
  exists r'. rewrite Hrun, Hgot, <- Hlen.
  rewrite take_app_length, drop_app_length. done.
Qed.

Lemma error_free_net_errors_only (r : Reader) : error_free r → net_errors_only r.
Proof.
  unfold error_free, net_errors_only. intros H.
  eapply Forall_impl; [exact H|]. auto.
Qed.

(** ** Varints *)

Ltac div_lia := zify; Z.to_euclidean_division_equations; lia.

Lemma uint64_small (x : N) : x < 2 ^ 64 → uint64 x = x.
Proof. apply N.mod_small. Qed.

(** Or-ing in a value shifted past the bits of [a] adds it. *)
Lemma lor_shiftl_add (a b s : N) :
  a < 2 ^ s → N.lor a (N.shiftl b s) = a + b * 2 ^ s.
Proof.
  intros Ha.
  assert (Hland : N.land a (N.shiftl b s) = 0).
  { apply N.bits_inj. intros k. rewrite N.land_spec, N.bits_0.
    destruct (N.lt_ge_cases k s) as [Hk|Hk].
    - rewrite N.shiftl_spec_low by done. apply andb_false_r.
    - rewrite <- (N.mod_small a (2 ^ s)) by done.
      by rewrite N.mod_pow2_bits_high. }
  rewrite <- N.lxor_lor, <- N.add_nocarry_lxor by done.
  by rewrite N.shiftl_mul_pow2.
Qed.

(** The continuation byte [byte(x) | 0x80] of a varint. *)
Lemma continuation_byte (b : byte) :
  let c := N.lor (Byte.to_N b) 0x80 in
  c < 256 ∧ (c <? 0x80) = false ∧ N.land c 0x7f = Byte.to_N b mod 128.
Proof. destruct b; vm_compute; done. Qed.

Lemma continuation (x : N) :
  let c := Byte.to_N (byte_of_N (N.lor (x mod 256) 0x80)) in
  (c <? 0x80) = false ∧ N.land c 0x7f = x mod 128.
Proof.
  simpl. rewrite to_N_byte_of_N.
  destruct (continuation_byte (byte_of_N x)) as (Hlt & Hge & Hland).
  rewrite to_N_byte_of_N in *.
  rewrite N.mod_small by done. split; [done|].
  rewrite Hland. div_lia.
Qed.

Lemma ReadByte_next (r : Reader) (b : byte) (bs : list byte) :
  error_free r → unread r = b :: bs →
  ReadByte r = (b, None, mkReader bs (tail (rscript r))) ∧
  error_free (mkReader bs (tail (rscript r))).
Proof.
  unfold error_free, ReadByte. intros Hf ->. simpl.
  destruct (rscript r) as [|[k [e|]] sc]; simpl.
  - done.
  - inversion Hf; subst. done.
  - inversion Hf; subst. done.
Qed.

(** Reading back what [PutUvarint] stored: the state of the two loops after
    [i] bytes, with [t] bits of [x] still to go. *)
Lemma ReadUvarint_loop_PutUvarint_loop (f : nat) :
  ∀ (i s t x acc : N) (r : Reader) (rest : list byte),
    i + N.of_nat f = 9 → s = 7 * i → s + t = 64 →
    x < 2 ^ t → acc < 2 ^ s →
    error_free r → unread r = PutUvarint_loop f x ++ rest →
    ∃ r', ReadUvarint_loop (S f) i s acc r = (acc + x * 2 ^ s, None, r') ∧
          unread r' = rest ∧ error_free r'.
Proof.
  induction f as [|f IH]; intros i s t x acc r rest Hi Hs Ht Hx Hacc Hf Hu.
  - assert (t = 1) by lia. subst t. change (2 ^ 1) with 2 in Hx.
    simpl in Hu.
    destruct (ReadByte_next r _ _ Hf Hu) as [HR Hf'].
    simpl. rewrite HR, to_N_byte_of_N, N.mod_small by lia.
    replace (x <? 128) with true by (symmetry; apply N.ltb_lt; lia).
    replace (1 <? x) with false by (symmetry; apply N.ltb_ge; lia).
    rewrite andb_false_r.
    assert (Hb : N.shiftl x s < 2 ^ 64).
    { rewrite N.shiftl_mul_pow2. replace 64 with (1 + s) by lia.
      rewrite N.pow_add_r. change (2 ^ 1) with 2.
      assert (0 < 2 ^ s) by (apply N.neq_0_lt_0, N.pow_nonzero; lia). nia. }
    rewrite uint64_small, lor_shiftl_add by done. eauto.
  - assert (Hpow : 0 < 2 ^ s) by (apply N.neq_0_lt_0, N.pow_nonzero; lia).
    change (PutUvarint_loop (S f) x) with
      (if 0x80 <=? x
       then byte_of_N (N.lor (x mod 256) 0x80) :: PutUvarint_loop f (N.shiftr x 7)
       else [byte_of_N x]) in Hu.
    destruct (0x80 <=? x) eqn:Hbig.
    + apply N.leb_le in Hbig. simpl in Hu.
      destruct (ReadByte_next r _ _ Hf Hu) as [HR Hf'].
      destruct (continuation x) as [Hc Hl]. simpl in Hc, Hl.
      change (ReadUvarint_loop (S (S f)) i s acc r) with
        (let '(b, err, r') := ReadByte r in
         match err with
         | Some e =>
             if (0 <? i) && is_EOF e
             then (acc, Some (Transport ErrUnexpectedEOF), r')
             else (acc, Some (Transport e), r')
         | None =>
             if Byte.to_N b <? 0x80 then
               if (i =? MaxVarintLen64 - 1) && (1 <? Byte.to_N b)
               then (acc, Some errOverflow, r')
               else (N.lor acc (uint64 (N.shiftl (Byte.to_N b) s)), None, r')
             else
               ReadUvarint_loop (S f) (i + 1) (s + 7)
                 (N.lor acc (uint64 (N.shiftl (N.land (Byte.to_N b) 0x7f) s))) r'
         end).
      rewrite HR. cbv beta iota zeta. rewrite Hc, Hl.
      assert (Ht7 : ∃ t', t = t' + 7) by (exists (t - 7); lia).
      destruct Ht7 as [t' ->].
      assert (Hm : x mod 128 < 128) by (apply N.mod_upper_bound; lia).
      assert (Hsmall : N.shiftl (x mod 128) s < 2 ^ 64).
      { rewrite N.shiftl_mul_pow2. replace 64 with (s + (t' + 7)) by lia.
        rewrite N.pow_add_r.
        assert (128 ≤ 2 ^ (t' + 7)).
        { rewrite N.pow_add_r. change (2 ^ 7) with 128.
          assert (0 < 2 ^ t') by (apply N.neq_0_lt_0, N.pow_nonzero; lia). nia. }
        nia. }
      rewrite uint64_small, lor_shiftl_add by done.
      destruct (IH (i + 1) (s + 7) t' (N.shiftr x 7) (acc + x mod 128 * 2 ^ s)
                   (mkReader (PutUvarint_loop f (N.shiftr x 7) ++ rest)
                             (tail (rscript r))) rest)
        as (r' & Hrun & Hrest & Hfree); try done; try lia.
      * rewrite N.shiftr_div_pow2. change (2 ^ 7) with 128.
        rewrite N.pow_add_r in Hx. change (2 ^ 7) with 128 in Hx.
        apply N.Div0.div_lt_upper_bound. lia.
      * rewrite N.pow_add_r. change (2 ^ 7) with 128. nia.
      * exists r'. rewrite Hrun. split; [|done]. f_equal. f_equal.
        rewrite N.shiftr_div_pow2, N.pow_add_r. change (2 ^ 7) with 128.
        assert (x = x mod 128 + 128 * (x / 128)) by div_lia.
        nia.
    + apply N.leb_gt in Hbig.
      destruct (ReadByte_next r _ _ Hf Hu) as [HR Hf'].
      simpl. rewrite HR, to_N_byte_of_N, N.mod_small by lia.
      replace (x <? 128) with true by (symmetry; apply N.ltb_lt; lia).
      replace (i =? MaxVarintLen64 - 1) with false
        by (symmetry; apply N.eqb_neq; unfold MaxVarintLen64; lia).
      simpl.
      assert (Hb : N.shiftl x s < 2 ^ 64).
      { rewrite N.shiftl_mul_pow2, <- Ht, N.pow_add_r. nia. }
      rewrite uint64_small, lor_shiftl_add by done. eauto.
Qed.

(** [ReadUvarint] inverts [PutUvarint] on every [uint64]. *)
Lemma ReadUvarint_PutUvarint (x : N) (r : Reader) (rest : list byte) :
  x < 2 ^ 64 → error_free r → unread r = PutUvarint x ++ rest →
  ∃ r', ReadUvarint r = (x, None, r') ∧ unread r' = rest ∧ error_free r'.
Proof.
  intros Hx Hf Hu. unfold ReadUvarint, PutUvarint in *.
  destruct (ReadUvarint_loop_PutUvarint_loop 9 0 0 64 x 0 r rest)
    as (r' & Hrun & ?); try done.
  exists r'. split; [|done].
  change (N.to_nat MaxVarintLen64) with 10%nat. rewrite Hrun.
  f_equal. f_equal. change (2 ^ 0) with 1. lia.
Qed.

(** ** Frames *)

(** A frame sent with a nil result on a contract-abiding writer put
    [frame data] on the wire. *)
Lemma sendFrame_written (w w' : Writer) (data : list byte) :
  compliant w → sendFrame w data = (None, w') →
  written w' = written w ++ frame data ∧ compliant w'.
Proof.
  intros Hc. unfold sendFrame, frame.
  destruct (length data =? 0)%nat eqn:Hlen.
  - apply Nat.eqb_eq in Hlen. rewrite Hlen.
    apply length_zero_iff_nil in Hlen. subst data. rewrite app_nil_r.
    by apply write_written.
  - destruct (write w _) as [[e|] w1] eqn:Hw1; [done|].
    apply write_written in Hw1 as [Hw1 Hc1]; [|done].
    intros Hw2. apply write_written in Hw2 as [Hw2 Hc2]; [|done].
    by rewrite Hw2, Hw1, <- app_assoc.
Qed.

Lemma recvFrame_frame (b : list byte) (r : Reader) (rest : list byte) :
  N.of_nat (length b) ≤ MaxInt →
  error_free r → unread r = frame b ++ rest →
  ∃ r', recvFrame r = (b, None, r') ∧ unread r' = rest.
Proof.
  intros Hlen Hf Hu. unfold frame in Hu. rewrite <- app_assoc in Hu.
  assert (Hsize : uint64 (N.of_nat (length b)) = N.of_nat (length b)).
  { apply uint64_small. unfold MaxInt in Hlen. change (2 ^ 64) with (2 * 2 ^ 63). lia. }
  rewrite Hsize in Hu.
  destruct (ReadUvarint_PutUvarint (N.of_nat (length b)) r (b ++ rest))
    as (r1 & HR & Hu1 & Hf1); [|done|done|].
  { rewrite <- Hsize. apply N.mod_upper_bound. done. }
  unfold recvFrame. rewrite HR.
  destruct (N.of_nat (length b) =? 0) eqn:Hz; simpl.
  - apply N.eqb_eq in Hz. destruct b; [|simpl in Hz; lia]. eauto.
  - destruct (read_supplied r1 (repeat x00 (N.to_nat (N.of_nat (length b)))))
      as (r2 & Hrd & Hu2 & _).
    + by apply error_free_net_errors_only.
    + rewrite repeat_length, Nat2N.id, Hu1, length_app. lia.
    + rewrite Hrd. rewrite repeat_length, Nat2N.id, Hu1 in *.
      rewrite take_app_length. rewrite drop_app_length in Hu2. eauto.
Qed.



(** ** Partial I/O *)

(** The loop at [index] does what a fresh loop does on [data[index:]]. *)
Lemma write_loop_shift (fuel : nat) (w : Writer) (data : list byte) (index : nat) :
  write_loop fuel w data index = write_loop fuel w (drop index data) 0.
Proof.
  revert w data index. induction fuel as [|fuel IH]; intros w data index; simpl;
    rewrite length_drop;
    destruct (Nat.ltb_spec index (length data)) as [Hlt|Hge];
    destruct (Nat.ltb_spec 0 (length data - index)); try lia; try done.
  rewrite drop_0.
  destruct (Write w (drop index data)) as [[n err] w1].
  destruct (negb (is_net_Error err)); [done|].
  rewrite IH, (IH w1 (drop index data) n), drop_drop. done.
Qed.

Lemma write_loop_S (fuel : nat) (w : Writer) (data : list byte) (index : nat) :
  write_loop (S fuel) w data index =
    if (index <? length data)%nat then
      let '(n, err, w') := Write w (drop index data) in
      if negb (is_net_Error err) then Some (Transport <$> err, w')
      else write_loop fuel w' data (index + n)
    else Some (None, w).
Proof. reflexivity. Qed.

Lemma write_first_call (w : Writer) (data : list byte) :
  data ≠ [] →
  let '(n, err, w1) := Write w data in
  if is_net_Error err
  then write w data = write w1 (drop n data)
  else write w data = (Transport <$> err, w1).
Proof.
  intros Hd. pose proof (write_unfold w data) as Hu.
  assert (0 < length data)%nat as Hlen by (destruct data; [done|simpl; lia]).
  apply Nat.ltb_lt in Hlen.
  rewrite write_loop_S, Hlen, drop_0 in Hu.
  destruct (Write w data) as [[n err] w1] eqn:HW.
  destruct (is_net_Error err) eqn:Hnet; simpl in Hu; [|congruence].
  assert (Hsc : length (wscript w) = S (length (wscript w1))).
  { unfold Write in HW. destruct (wscript w) as [|[k e] sc].
    - injection HW as <- <- <-. done.
    - injection HW as <- <- <-. done. }
  rewrite write_loop_shift, Hsc, write_unfold in Hu. congruence.
Qed.

Lemma write_loop_error (fuel : nat) (w w' : Writer) (data : list byte)
    (index : nat) (e : error) :
  write_loop fuel w data index = Some (Some e, w') →
  ∃ e0, e = Transport e0 ∧ is_net_Error (Some e0) = false.
Proof.
  revert w index. induction fuel as [|fuel IH]; intros w index; simpl;
    destruct (index <? length data)%nat; try done.
  destruct (Write w (drop index data)) as [[n err] w1].
  destruct (is_net_Error err) eqn:Hnet; simpl; [by apply IH|].
  destruct err as [e0|]; simpl; [|done].
  intros [= <- <-]. eauto.
Qed.

Lemma read_loop_error (fuel : nat) (r r' : Reader) (data data' : list byte)
    (index : nat) (e : error) :
  read_loop fuel r data index = Some (Some e, data', r') →
  ∃ e0, e = Transport e0 ∧ is_net_Error (Some e0) = false.
Proof.
  revert r data index. induction fuel as [|fuel IH]; intros r data index; simpl;
    destruct (index <? length data)%nat; try done.
  destruct (Read r (length data - index)) as [[chunk err] r1].
  destruct err as [e0|]; [|by apply IH].
  destruct (is_net_Error (Some e0)) eqn:Hnet; simpl; [by apply IH|].
  intros [= <- <- <-]. eauto.
Qed.

Lemma write_error (w w' : Writer) (data : list byte) (e : error) :
  write w data = (Some e, w') →
  ∃ e0, e = Transport e0 ∧ is_net_Error (Some e0) = false.
Proof.
  intros H. pose proof (write_unfold w data) as Hu. rewrite H in Hu.
  by apply write_loop_error in Hu.
Qed.

Lemma read_error (r r' : Reader) (data data' : list byte) (e : error) :
  read r data = (Some e, data', r') →
  ∃ e0, e = Transport e0 ∧ is_net_Error (Some e0) = false.
Proof.
  intros H. pose proof (read_unfold r data) as Hu. rewrite H in Hu.
  by apply read_loop_error in Hu.
Qed.

Lemma read_loop_S (fuel : nat) (r : Reader) (data : list byte) (index : nat) :
  read_loop (S fuel) r data index =
    if (index <? length data)%nat then
      let '(chunk, err, r') := Read r (length data - index) in
      let data' := store data index chunk in
      match err with
      | Some e =>
          if negb (is_net_Error err) then Some (Some (Transport e), data', r')
          else read_loop fuel r' data' (index + length chunk)
      | None => read_loop fuel r' data' (index + length chunk)
      end
    else Some (None, data, r).
Proof. reflexivity. Qed.

(** A loop that has returned returns the same with more fuel. *)
Lemma read_loop_more (fuel : nat) :
  ∀ (fuel' : nat) (r : Reader) (data : list byte) (index : nat) x,
    read_loop fuel r data index = Some x → (fuel ≤ fuel')%nat →
    read_loop fuel' r data index = Some x.
Proof.
  induction fuel as [|fuel IH]; intros fuel' r data index x.
  - destruct fuel'; simpl; by destruct (index <? length data)%nat.
  - destruct fuel' as [|fuel']; [lia|].
    rewrite !read_loop_S. destruct (index <? length data)%nat; [|done].
    destruct (Read r (length data - index)) as [[chunk err] r1].
    intros H Hle.
    assert (Hrec : ∀ y, read_loop fuel r1 (store data index chunk) (index + length chunk)
                        = Some y →
                        read_loop fuel' r1 (store data index chunk) (index + length chunk)
                        = Some y)
      by (intros y Hy; apply IH; [done|lia]).
    destruct err as [e|]; [|by apply Hrec].
    destruct (negb (is_net_Error (Some e))); [done|by apply Hrec].
Qed.

(** The loop at [index] does what a fresh loop does on [data[index:]], in
    front of which the bytes stored so far stay. *)
Lemma read_loop_shift (fuel : nat) :
  ∀ (r : Reader) (data : list byte) (index : nat),
    (index ≤ length data)%nat →
    read_loop fuel r data index =
      (λ x : option error * list byte * Reader,
         (fst (fst x), take index data ++ snd (fst x), snd x))
        <$> read_loop fuel r (drop index data) 0.
Proof.
  induction fuel as [|fuel IH]; intros r data index Hi.
  - simpl. rewrite length_drop.
    destruct (Nat.ltb_spec index (length data));
      destruct (Nat.ltb_spec 0 (length data - index)); try lia; try done.
    simpl. by rewrite take_drop.
  - rewrite !read_loop_S. rewrite length_drop, Nat.sub_0_r.
    destruct (Nat.ltb_spec index (length data));
      destruct (Nat.ltb_spec 0 (length data - index)); try lia;
      [|simpl; by rewrite take_drop].
    destruct (Read_inv r (length data - index)) as (m & Hm & Hchunk & _).
    destruct (Read r (length data - index)) as [[chunk err] r1]. simpl in Hchunk.
    assert (Hlen : (length chunk ≤ length data - index)%nat)
      by (subst chunk; rewrite length_take; lia).
    assert (Hstore : store data index chunk
                     = take index data ++ store (drop index data) 0 chunk).
    { unfold store. by rewrite take_0, drop_drop. }
    assert (Hrec : read_loop fuel r1 (store data index chunk) (index + length chunk) =
                   (λ x : option error * list byte * Reader,
                      (fst (fst x), take index data ++ snd (fst x), snd x))
                     <$> read_loop fuel r1 (store (drop index data) 0 chunk)
                           (0 + length chunk)).
    { rewrite IH by (rewrite store_length; lia).
      rewrite (IH r1 (store (drop index data) 0 chunk))
        by (rewrite store_length; rewrite ?length_drop; lia).
      rewrite take_store by lia.
      replace (0 + length chunk)%nat with (0 + length chunk)%nat by done.
      rewrite (take_store (drop index data) 0 chunk) by lia.
      rewrite take_0. simpl.
      assert (Hd1 : drop (index + length chunk) (store data index chunk)
                    = drop (index + length chunk) data).
      { unfold store. rewrite app_assoc.
        rewrite drop_app_length'; [done|].
        rewrite length_app, length_take. lia. }
      assert (Hd2 : drop (length chunk) (store (drop index data) 0 chunk)
                    = drop (index + length chunk) data).
      { unfold store. rewrite take_0. simpl.
        rewrite drop_app_length. by rewrite drop_drop. }
      rewrite Hd1, Hd2.
      destruct (read_loop fuel r1 (drop (index + length chunk) data) 0)
        as [[[res d] r2]|]; simpl; [|done].
      by rewrite <- app_assoc. }
    destruct err as [e|]; [|exact Hrec].
    destruct (negb (is_net_Error (Some e))); [|exact Hrec].
    simpl. by rewrite Hstore.
Qed.

(** One turn of [read]: an error that is not a [net.Error] ends it at
    once; a nil error or a [net.Error] makes it go on with the rest of the
    buffer. *)
Lemma read_first_call (r : Reader) (data : list byte) :
  data ≠ [] →
  let '(chunk, err, r1) := Read r (length data) in
  if match err with None => true | Some _ => is_net_Error err end
  then read r data =
         (let '(res, rest, r2) := read r1 (drop (length chunk) data) in
          (res, chunk ++ rest, r2))
  else read r data = (Transport <$> err, chunk ++ drop (length chunk) data, r1).
Proof.
  intros Hd. pose proof (read_unfold r data) as Hu.
  assert (0 < length data)%nat as Hlen by (destruct data; [done|simpl; lia]).
  destruct (length (rscript r) + length data)%nat as [|fuel] eqn:Hfuel; [lia|].
  rewrite read_loop_S in Hu.
  destruct (Nat.ltb_spec 0 (length data)) as [_|?]; [|lia].
  rewrite Nat.sub_0_r in Hu.
  destruct (Read_inv r (length data)) as (m & Hm & Hchunk & Hun & Hsc & Hdef).
  pose proof (Read_err r (length data)) as Herr.
  destruct (Read r (length data)) as [[chunk err] r1]. simpl in *.
  assert (Hcl : (length chunk ≤ length data)%nat)
    by (subst chunk; rewrite length_take; lia).
  assert (Hstore : store data 0 chunk = chunk ++ drop (length chunk) data)
    by (unfold store; by rewrite take_0).
  assert (Hgo : match err with None => true | Some _ => is_net_Error err end = true →
                read_loop fuel r1 (store data 0 chunk) (length chunk) = Some (read r data) →
                read r data =
                  (let '(res, rest, r2) := read r1 (drop (length chunk) data) in
                   (res, chunk ++ rest, r2))).
  { intros Hcont Hrun.
    rewrite read_loop_shift in Hrun by (rewrite store_length; lia).
    assert (Hdrop : drop (length chunk) (store data 0 chunk) = drop (length chunk) data).
    { rewrite Hstore. by rewrite drop_app_length. }
    assert (Htake : take (length chunk) (store data 0 chunk) = chunk).
    { rewrite Hstore. by rewrite take_app_length. }
    rewrite Hdrop, Htake in Hrun.
    pose proof (read_unfold r1 (drop (length chunk) data)) as Hu1.
    apply (read_loop_more _ fuel) in Hu1.
    - rewrite Hu1 in Hrun. simpl in Hrun. injection Hrun as <-.
      by destruct (read r1 (drop (length chunk) data)) as [[res rest] r2].
    - rewrite length_drop, Hsc.
      destruct (rscript r) as [|st sc] eqn:Hr; simpl in *; [|lia].
      rewrite (Hdef eq_refl) in Hchunk.
      destruct (unread r) as [|b bs] eqn:Hur.
      + (* the end of the stream: [io.EOF], which ends the loop *)
        subst err. done.
      + subst chunk. rewrite length_take. simpl. lia. }
  destruct err as [e|]; [|by apply Hgo].
  destruct (is_net_Error (Some e)) eqn:Hnet; simpl in Hu.
  - by apply Hgo.
  - injection Hu as <-. simpl. by rewrite Hstore.
Qed.

(** C7, as stated, fails: after a [net.Error] that is not transient (a
    closed connection) [write] and [read] go on and return nil. *)
Lemma partial_io_counterexample :
  ¬ spec_write_propagates (mkWriter [] [(0%nat, Some Fixture.closed)]) [x01] ∧
  ¬ spec_read_stops (mkReader [x01] [(0%nat, Some Fixture.closed)]) [x00].
Proof.
  split; intros H; specialize (H Fixture.closed); vm_compute in H;
    by specialize (H ltac:(discriminate) eq_refl eq_refl).
Qed.

(** C7, amended.  The retry class of the two loops is [net.Error], transient
    or not.  [write] returns the outcome of the first [Write] call whose
    error is not a [net.Error], a nil error included, and otherwise retries on
    the rest of the buffer; it never returns a [net.Error], and a nil result
    on a writer that keeps the [io.Writer] contract means the full buffer was
    accepted.  [read] goes on until the buffer is filled or an error that is
    not a [net.Error] is observed: a [Read] call that returns such an error
    ends it at once with that error and the bytes stored so far, a call that
    returns nil or a [net.Error] makes it go on with the rest of the buffer;
    it never returns a [net.Error], a nil result means the buffer holds the
    next [len(data)] bytes of the stream, and a stream that holds them and
    fails only with [net.Error]s yields a nil result. *)
Theorem partial_io_net_errors (w : Writer) (r : Reader) (data : list byte) :
  (data ≠ [] →
   let '(n, err, w1) := Write w data in
   if is_net_Error err
   then write w data = write w1 (drop n data)
   else write w data = (Transport <$> err, w1)) ∧
  (∀ e w', write w data = (Some e, w') →
           ∃ e0, e = Transport e0 ∧ is_net_Error (Some e0) = false) ∧
  (∀ w', compliant w → write w data = (None, w') →
         written w' = written w ++ data) ∧
  (data ≠ [] →
   let '(chunk, err, r1) := Read r (length data) in
   if match err with None => true | Some _ => is_net_Error err end
   then read r data =
          (let '(res, rest, r2) := read r1 (drop (length chunk) data) in
           (res, chunk ++ rest, r2))
   else read r data = (Transport <$> err, chunk ++ drop (length chunk) data, r1)) ∧
  (∀ e data' r', read r data = (Some e, data', r') →
                 ∃ e0, e = Transport e0 ∧ is_net_Error (Some e0) = false) ∧
  (∀ data' r', read r data = (None, data', r') →
               unread r = data' ++ unread r' ∧ length data' = length data) ∧
  (net_errors_only r → (length data ≤ length (unread r))%nat →
   ∃ r', read r data = (None, take (length data) (unread r), r')).
Proof.
  split; [apply write_first_call|].
  split; [intros e w'; apply write_error|].
  split; [intros w' Hc Hw; by apply write_written in Hw as [? _]|].
  split; [apply read_first_call|].
  split; [intros e data' r'; apply read_error|].
  split.
  - intros data' r' H. apply read_consumed in H as (got & ? & _ & Hok).
    destruct (Hok eq_refl) as [-> ?]. done.
  - intros Hn Hlen. destruct (read_supplied r data Hn Hlen) as (r' & ? & _). eauto.
Qed.

Lemma partial_io_net_errors_witness :
  write (mkWriter [] [(1%nat, Some Fixture.closed)]) [x01; x02]
  = (None, mkWriter [x01; x02] []) ∧
  (∃ r', read (mkReader [x01; x02; x03] [(1%nat, Some Fixture.closed)]) [x00; x00]
         = (None, [x01; x02], r')) ∧
  read (mkReader [x01; x02; x03]
                 [(1%nat, Some Fixture.closed); (1%nat, Some (IOFail "broken pipe"))])
       [x00; x00; x00]
  = (Some (Transport (IOFail "broken pipe")), [x01; x02; x00], mkReader [x03] []).
Proof.
  split; [|split].
  - destruct (partial_io_net_errors
                (mkWriter [] [(1%nat, Some Fixture.closed)]) (Fixture.source [])
                [x01; x02]) as (H & _).
    apply (H ltac:(discriminate)).
  - destruct (partial_io_net_errors Fixture.sink
                (mkReader [x01; x02; x03] [(1%nat, Some Fixture.closed)])
                [x00; x00]) as (_ & _ & _ & _ & _ & _ & H).
    apply H; [|simpl; lia].
    unfold net_errors_only; simpl. constructor; [by right|constructor].
  - destruct (partial_io_net_errors Fixture.sink
                (mkReader [x01; x02; x03]
                   [(1%nat, Some Fixture.closed); (1%nat, Some (IOFail "broken pipe"))])
                [x00; x00; x00]) as (_ & _ & _ & H1 & _).
    apply (H1 ltac:(discriminate)).
Defined.

(** ** The client codec *)


Section ClientCodec.
Context {V : Type}.
Variable Compressors : gmap N Compressor.
Variable requestCoding : HeaderCoding RequestHeader.t.
Variable responseCoding : HeaderCoding ResponseHeader.t.

Abbreviation WriteRequest := (clientCodec.WriteRequest (V:=V) Compressors requestCoding).
Abbreviation ReadResponseHeader := (clientCodec.ReadResponseHeader (V:=V) responseCoding).
Abbreviation respBuffer := (clientCodec.respBuffer (V:=V)).
Abbreviation ReadResponseBody := (clientCodec.ReadResponseBody (V:=V) Compressors).

(** C5.  With a configured compressor tag that is not in the registry,
    [WriteRequest] returns [NotFoundCompressorError] whatever the serializer
    does, the writer (and the reader) are as before the call, so nothing went
    on the wire, and the pending map holds the entry for the request's
    sequence number. *)
Theorem write_request_unknown_compressor
    (c : clientCodec.t (V:=V)) (r : Request.t) (param : V) :
  Compressors !! clientCodec.compressor c = None →
  let '(err, c') := WriteRequest c r param in
  err = Some NotFoundCompressorError ∧
  clientCodec.writer c' = clientCodec.writer c ∧
  clientCodec.reader c' = clientCodec.reader c ∧
  clientCodec.pending c' = <[Request.Seq r := Request.ServiceMethod r]> (clientCodec.pending c) ∧
  clientCodec.pending c' !! Request.Seq r = Some (Request.ServiceMethod r).
Proof.
  intros H. unfold clientCodec.WriteRequest. simpl. rewrite H. simpl.
  repeat split. apply lookup_insert_eq.
Qed.

(** C6, amended.  When the decoded response header carries an id that is
    not a key of the pending map, [ReadResponseHeader] returns nil all the
    same: it reports the id as sequence number with the header's error and
    an empty method name, and the pending map is unchanged. *)
Theorem read_response_header_unknown_seq
    (c : clientCodec.t (V:=V)) (resp : Response.t)
    (data : list byte) (r : Reader) (h : ResponseHeader.t) :
  recvFrame (clientCodec.reader c) = (data, None, r) →
  Unmarshal responseCoding ResponseHeader.zero data = (None, h) →
  clientCodec.pending c !! ResponseHeader.ID h = None →
  let '(err, resp', c') := ReadResponseHeader c resp in
  err = None ∧
  resp' = Response.mk EmptyString (ResponseHeader.ID h) (ResponseHeader.Error h) ∧
  clientCodec.pending c' = clientCodec.pending c ∧
  clientCodec.response c' = h ∧
  clientCodec.reader c' = r.
Proof.
  intros Hrecv Hun Hp. unfold clientCodec.ReadResponseHeader. simpl.
  rewrite Hrecv. simpl. unfold ResponseHeader.ResetHeader. rewrite Hun. simpl.
  rewrite Hp. simpl. rewrite delete_id by done. done.
Qed.

(** C4.  With a non-nil target [ReadResponseBody] returns
    [UnexpectedChecksumError] exactly when the body was received, the
    checksum of the header is not zero and it differs from the CRC-32 of the
    received body; with a zero checksum it never returns that error. *)
Theorem read_response_body_checksum (c : clientCodec.t (V:=V)) (target : V) :
  (fst (fst (ReadResponseBody c (Some target))) = Some UnexpectedChecksumError ↔
   ∃ respBody r,
     read (clientCodec.reader c) (respBuffer c) = (None, respBody, r) ∧
     ResponseHeader.Checksum (clientCodec.response c) ≠ 0 ∧
     ChecksumIEEE respBody ≠ ResponseHeader.Checksum (clientCodec.response c)) ∧
  (ResponseHeader.Checksum (clientCodec.response c) = 0 →
   fst (fst (ReadResponseBody c (Some target))) ≠ Some UnexpectedChecksumError).
Proof.
  assert (Hiff :
    fst (fst (ReadResponseBody c (Some target))) = Some UnexpectedChecksumError ↔
    ∃ respBody r,
      read (clientCodec.reader c) (respBuffer c) = (None, respBody, r) ∧
      ResponseHeader.Checksum (clientCodec.response c) ≠ 0 ∧
      ChecksumIEEE respBody ≠ ResponseHeader.Checksum (clientCodec.response c)).
  { unfold clientCodec.ReadResponseBody.
    destruct (read _ _) as [[err respBody] r] eqn:Hread. simpl.
    destruct err as [e|]; simpl.
    - split.
      + intros [= ->]. apply read_error in Hread as (e0 & ? & _). done.
      + intros (? & ? & ? & _). done.
    - destruct (N.eqb_spec (ResponseHeader.Checksum (clientCodec.response c)) 0) as [Hz|Hz];
        destruct (N.eqb_spec (ChecksumIEEE respBody)
                             (ResponseHeader.Checksum (clientCodec.response c))) as [Hs|Hs];
        simpl.
      1-3: split; [|intros (b & r0 & [= <- <-] & ? & ?); done].
      1-3: destruct (negb _); simpl; [done|];
           destruct (Compressors !! _) as [comp|]; simpl; [|done];
           destruct (Unzip comp respBody); simpl; [|done];
           destruct (Serializer.Unmarshal _ _ _); done.
      split; [eauto 6|done]. }
  split; [exact Hiff|].
  intros Hz Herr. apply Hiff in Herr as (? & ? & _ & ? & _). done.
Qed.

(** C8.  With a non-nil target, the body received and the checksum check
    passed, a header compress type other than the configured one makes
    [ReadResponseBody] return [CompressorTypeMismatchError]; the reader has
    then given up exactly [ResponseLen] bytes, the body, and stands at the
    byte after it. *)
Theorem read_response_body_mismatch
    (c : clientCodec.t (V:=V)) (target : V) (respBody : list byte) (r : Reader) :
  read (clientCodec.reader c) (respBuffer c) = (None, respBody, r) →
  ResponseHeader.Checksum (clientCodec.response c) = 0 ∨
    ChecksumIEEE respBody = ResponseHeader.Checksum (clientCodec.response c) →
  ResponseHeader.GetCompressType (clientCodec.response c) ≠ clientCodec.compressor c →
  let '(err, _, c') := ReadResponseBody c (Some target) in
  err = Some CompressorTypeMismatchError ∧
  clientCodec.reader c' = r ∧
  unread (clientCodec.reader c) = respBody ++ unread (clientCodec.reader c') ∧
  N.of_nat (length respBody) = ResponseHeader.ResponseLen (clientCodec.response c).
Proof.
  intros Hread Hsum Hct. unfold clientCodec.ReadResponseBody.
  rewrite Hread. simpl.
  assert (Hpass :
    negb (ResponseHeader.Checksum (clientCodec.response c) =? 0)
    && negb (ChecksumIEEE respBody =? ResponseHeader.Checksum (clientCodec.response c))
    = false).
  { destruct Hsum as [->| ->]; [done|]. rewrite N.eqb_refl. apply andb_false_r. }
  rewrite Hpass. apply N.eqb_neq in Hct. rewrite Hct. simpl.
  apply read_consumed in Hread as (got & Hgot & _ & Hok).
  destruct (Hok eq_refl) as [-> Hlen].
  repeat split; [done|].
  rewrite Hlen. unfold clientCodec.respBuffer. rewrite repeat_length. apply N2Nat.id.
Qed.

End ClientCodec.

Lemma write_request_unknown_compressor_witness :
  let '(err, c') :=
    clientCodec.WriteRequest Fixture.Compressors Fixture.requestCoding
      Fixture.misconfigured (Request.mk "Arith.Multiply" 1) [x07; x06] in
  err = Some NotFoundCompressorError ∧
  clientCodec.writer c' = clientCodec.writer Fixture.misconfigured ∧
  clientCodec.reader c' = clientCodec.reader Fixture.misconfigured ∧
  clientCodec.pending c' =
    <[1 := "Arith.Multiply"%string]> (clientCodec.pending Fixture.misconfigured) ∧
  clientCodec.pending c' !! 1 = Some "Arith.Multiply"%string.
Proof.
  apply (write_request_unknown_compressor Fixture.Compressors Fixture.requestCoding
           Fixture.misconfigured (Request.mk "Arith.Multiply" 1) [x07; x06]).
  vm_compute. reflexivity.
Defined.

(** C6, as stated, fails: a client with nothing pending that receives a
    response header with id 7 gets a nil result. *)
Lemma read_response_header_counterexample :
  ¬ clientCodec.spec_unknown_seq_rejected Fixture.responseCoding
      (Fixture.idle 0 0) (Response.mk EmptyString 0 EmptyString).
Proof.
  intros H. eapply H.
  - vm_compute. reflexivity.
  - vm_compute. reflexivity.
  - vm_compute. reflexivity.
  - vm_compute. reflexivity.
Qed.

Lemma read_response_header_unknown_seq_witness :
  let '(err, resp', c') :=
    clientCodec.ReadResponseHeader Fixture.responseCoding (Fixture.idle 0 0)
      (Response.mk EmptyString 0 EmptyString) in
  err = None ∧
  resp' = Response.mk EmptyString 7 EmptyString ∧
  clientCodec.pending c' = clientCodec.pending (Fixture.idle 0 0) ∧
  clientCodec.response c' = ResponseHeader.mk 7 EmptyString 1 0 0 ∧
  clientCodec.reader c' = Fixture.source [x2a].
Proof.
  apply (read_response_header_unknown_seq Fixture.responseCoding (Fixture.idle 0 0)
           (Response.mk EmptyString 0 EmptyString)
           (Marshal Fixture.responseCoding (ResponseHeader.mk 7 EmptyString 1 0 0))
           (Fixture.source [x2a])
           (ResponseHeader.mk 7 EmptyString 1 0 0)).
  - vm_compute. reflexivity.
  - vm_compute. reflexivity.
  - vm_compute. reflexivity.
Defined.

Lemma read_response_body_checksum_witness :
  fst (fst (clientCodec.ReadResponseBody Fixture.Compressors (Fixture.at_body 5 0) (Some [])))
    = Some UnexpectedChecksumError ∧
  fst (fst (clientCodec.ReadResponseBody Fixture.Compressors (Fixture.at_body 0 0) (Some [])))
    ≠ Some UnexpectedChecksumError.
Proof.
  split.
  - apply (read_response_body_checksum Fixture.Compressors (Fixture.at_body 5 0) []).
    exists [x2a], (Fixture.source []).
    split; [vm_compute; reflexivity|]. split; vm_compute; discriminate.
  - apply (read_response_body_checksum Fixture.Compressors (Fixture.at_body 0 0) []).
    vm_compute. reflexivity.
Defined.

Lemma read_response_body_mismatch_witness :
  let '(err, _, c') :=
    clientCodec.ReadResponseBody Fixture.Compressors
      (Fixture.at_body (ChecksumIEEE [x2a]) 1) (Some []) in
  err = Some CompressorTypeMismatchError ∧
  clientCodec.reader c' = Fixture.source [] ∧
  unread (clientCodec.reader (Fixture.at_body (ChecksumIEEE [x2a]) 1))
    = [x2a] ++ unread (clientCodec.reader c') ∧
  N.of_nat (length [x2a]) =
    ResponseHeader.ResponseLen (clientCodec.response (Fixture.at_body (ChecksumIEEE [x2a]) 1)).
Proof.
  apply (read_response_body_mismatch Fixture.Compressors
           (Fixture.at_body (ChecksumIEEE [x2a]) 1) [] [x2a] (Fixture.source [])).
  - vm_compute. reflexivity.
  - right. vm_compute. reflexivity.
  - vm_compute. discriminate.
Defined.

(** ** The server codec *)

(** What [read] does to a zeroed buffer of [n] bytes, as both codecs use
    it to take a body off the stream. *)
Lemma read_body (r : Reader) (n : N) :
  let '(err, body, r') := read r (repeat x00 (N.to_nat n)) in
  (err = None ∨ ∃ e0, err = Some (Transport e0)) ∧
  (∃ got, unread r = got ++ unread r' ∧ N.of_nat (length got) ≤ n ∧
          (err = None → body = got ∧ N.of_nat (length got) = n)) ∧
  (net_errors_only r → n ≤ N.of_nat (length (unread r)) → err = None).
Proof.
  destruct (read r (repeat x00 (N.to_nat n))) as [[err body] r'] eqn:Hread.
  split; [|split].
  - destruct err as [e|]; [|by left].
    apply read_error in Hread as (e0 & -> & _). eauto.
  - apply read_consumed in Hread as (got & Hgot & Hle & Hok).
    rewrite repeat_length in *. exists got. split; [done|]. split; [lia|].
    intros He. destruct (Hok He) as [-> ?]. split; [done|lia].
  - intros Hn Hlen. destruct (read_supplied r (repeat x00 (N.to_nat n)) Hn) as (r2 & Hr2 & _).
    + rewrite repeat_length. lia.
    + congruence.
Qed.

Section ServerCodec.
Context {V : Type}.
Variable Compressors : gmap N Compressor.
Variable requestCoding : HeaderCoding RequestHeader.t.
Variable responseCoding : HeaderCoding ResponseHeader.t.

Abbreviation ReadRequestHeader := (serverCodec.ReadRequestHeader (V:=V) requestCoding).
Abbreviation ReadRequestBody := (serverCodec.ReadRequestBody (V:=V) Compressors).
Abbreviation WriteResponse := (serverCodec.WriteResponse (V:=V) Compressors responseCoding).
Abbreviation exec := (serverCodec.exec (V:=V) Compressors requestCoding responseCoding).
Abbreviation run := (serverCodec.run (V:=V) Compressors requestCoding responseCoding).

(** C9, amended.  No body read takes more than [RequestLen] bytes off the
    stream.  With a non-nil target, the body received and a checksum that is
    zero or matches, a compress type that is not in the registry makes
    [ReadRequestBody] return [NotFoundCompressorError], with exactly the
    [RequestLen] bytes of the body consumed. *)
Theorem read_request_body_unknown_compressor
    (s : serverCodec.t (V:=V)) (param : option V) :
  Compressors !! RequestHeader.GetCompressType (serverCodec.request s) = None →
  let '(err, _, s') := ReadRequestBody s param in
  (∃ got, unread (serverCodec.reader s) = got ++ unread (serverCodec.reader s') ∧
          N.of_nat (length got) ≤ RequestHeader.RequestLen (serverCodec.request s)) ∧
  (∀ target reqBody r,
     param = Some target →
     read (serverCodec.reader s) (serverCodec.reqBuffer s) = (None, reqBody, r) →
     RequestHeader.Checksum (serverCodec.request s) = 0 ∨
       ChecksumIEEE reqBody = RequestHeader.Checksum (serverCodec.request s) →
     err = Some NotFoundCompressorError ∧
     unread (serverCodec.reader s) = reqBody ++ unread (serverCodec.reader s') ∧
     N.of_nat (length reqBody) = RequestHeader.RequestLen (serverCodec.request s)).
Proof.
  intros Hreg. unfold serverCodec.ReadRequestBody, serverCodec.reqBuffer.
  pose proof (read_body (serverCodec.reader s)
                (RequestHeader.RequestLen (serverCodec.request s))) as Hb.
  destruct param as [target|].
  - destruct (read _ _) as [[err reqBody] r] eqn:Hread.
    destruct Hb as (_ & (got & Hgot & Hle & Hok) & _).
    destruct err as [e|]; simpl.
    + split; [eauto|]. intros ? ? ? _ [=].
    + destruct (Hok eq_refl) as [-> Hlen].
      rewrite Hreg.
      destruct (negb _ && negb _) eqn:Hsum; simpl.
      * split; [eauto|]. intros ? ? ? _ [= <- <-] [Hz|Hz]; rewrite Hz in Hsum.
        -- done.
        -- rewrite N.eqb_refl, andb_false_r in Hsum. done.
      * split; [eauto|]. intros ? ? ? _ [= <- <-] _. done.
  - destruct (negb _) eqn:Hz.
    + destruct (read _ _) as [[err reqBody] r] eqn:Hread.
      destruct Hb as (_ & (got & Hgot & Hle & _) & _). simpl.
      split; [eauto|intros; done].
    + split; [|intros; done]. exists []. split; [done|]. simpl. lia.
Qed.

(** C2, amended.  For a [WriteResponse] that returns nil (on a writer that
    keeps the [io.Writer] contract) with the context [ctx] pending for its
    sequence number, the wire received the frame of the header followed by
    the compressed body, where the header has the id and the compress type
    remembered in [ctx], the error of the response, the CRC-32 of the
    compressed body and its length as a [uint32] (the length itself under
    2^32 bytes); the compressed body is [Zip] of the marshalled value, or of
    the empty buffer when the error is non-empty or the value nil, in which
    case the serializer is not used. *)
Theorem write_response_header
    (s s' : serverCodec.t (V:=V)) (response : Response.t) (param : option V)
    (ctx : serverCodec.reqCtx) :
  compliant (serverCodec.writer s) →
  serverCodec.pending s !! Response.Seq response = Some ctx →
  WriteResponse s response param = (None, s') →
  ∃ comp respBody compressedRespBody,
    Compressors !! serverCodec.compressType ctx = Some comp ∧
    Zip comp respBody = inl compressedRespBody ∧
    (respBody = [] ∧ (Response.Error response ≠ EmptyString ∨ param = None) ∨
     Response.Error response = EmptyString ∧
       ∃ v, param = Some v ∧
            Serializer.Marshal (serverCodec.serializer s) v = inl respBody) ∧
    let h := serverCodec.responseHeader ctx response compressedRespBody in
    written (serverCodec.writer s') =
      written (serverCodec.writer s) ++ frame (Marshal responseCoding h)
        ++ compressedRespBody ∧
    ResponseHeader.ID h = serverCodec.requestId ctx ∧
    ResponseHeader.Error h = Response.Error response ∧
    ResponseHeader.ResponseLen h = N.of_nat (length compressedRespBody) mod 2 ^ 32 ∧
    (N.of_nat (length compressedRespBody) < 2 ^ 32 →
     ResponseHeader.ResponseLen h = N.of_nat (length compressedRespBody)) ∧
    ResponseHeader.Checksum h = ChecksumIEEE compressedRespBody ∧
    ResponseHeader.CompressType h = serverCodec.compressType ctx ∧
    serverCodec.pending s' = delete (Response.Seq response) (serverCodec.pending s).
Proof.
  intros Hc Hp. unfold serverCodec.WriteResponse. rewrite Hp.
  destruct (Compressors !! serverCodec.compressType ctx) as [comp|]; [|done].
  set (param' := if negb (Response.Error response =? EmptyString)%string
                 then None else param).
  set (marshalled := match param' with
                     | Some v => Serializer.Marshal _ v
                     | None => inl []
                     end).
  destruct marshalled as [respBody|] eqn:Hm; [|done].
  destruct (Zip comp respBody) as [compressedRespBody|] eqn:Hzip; [|done].
  destruct (sendFrame _ _) as [[e|] w1] eqn:Hsend; [done|].
  apply sendFrame_written in Hsend as [Hw1 Hc1]; [|done].
  destruct (write w1 compressedRespBody) as [[e|] w2] eqn:Hwrite; [done|].
  apply write_written in Hwrite as [Hw2 _]; [|done].
  intros [= <-]. exists comp, respBody, compressedRespBody.
  split; [done|]. split; [done|]. split.
  - subst marshalled param'.
    destruct (String.eqb_spec (Response.Error response) EmptyString) as [He|He]; simpl in Hm.
    + destruct param as [v|]; [right; eauto|].
      injection Hm as <-. left. eauto.
    + injection Hm as <-. left. eauto.
  - simpl in *. rewrite Hw2, Hw1, <- app_assoc.
    repeat split. intros Hlt. by apply N.mod_small.
Qed.

(** *** Sequence numbers *)

Lemma ReadRequestBody_state (s : serverCodec.t (V:=V)) (param : option V) :
  serverCodec.seq (snd (ReadRequestBody s param)) = serverCodec.seq s ∧
  serverCodec.pending (snd (ReadRequestBody s param)) = serverCodec.pending s.
Proof.
  unfold serverCodec.ReadRequestBody. destruct param as [target|].
  - destruct (read _ _) as [[[e|] reqBody] r]; simpl; [done|].
    destruct (negb _ && negb _); simpl; [done|].
    destruct (Compressors !! _) as [comp|]; simpl; [|done].
    destruct (Unzip comp reqBody); simpl; [|done].
    destruct (Serializer.Unmarshal _ _ _); done.
  - destruct (negb _); simpl; [|done].
    by destruct (read _ _) as [[err reqBody] r].
Qed.

Lemma WriteResponse_state (s : serverCodec.t (V:=V)) (response : Response.t)
    (param : option V) :
  serverCodec.seq (snd (WriteResponse s response param)) = serverCodec.seq s ∧
  ∀ k, is_Some (serverCodec.pending (snd (WriteResponse s response param)) !! k) →
       is_Some (serverCodec.pending s !! k).
Proof.
  unfold serverCodec.WriteResponse.
  destruct (serverCodec.pending s !! Response.Seq response) as [ctx|] eqn:Hp; [|done].
  assert (Hdel : ∀ k, is_Some (delete (Response.Seq response) (serverCodec.pending s) !! k) →
                      is_Some (serverCodec.pending s !! k)).
  { intros k [x Hx]. apply lookup_delete_Some in Hx as [_ Hx]. eauto. }
  destruct (Compressors !! _) as [comp|]; [|done].
  destruct (match (if negb _ then None else param) with
            | Some v => Serializer.Marshal _ v
            | None => inl []
            end) as [respBody|]; [|done].
  destruct (Zip comp respBody) as [compressedRespBody|]; [|done].
  destruct (sendFrame _ _) as [[e|] w1]; [done|].
  by destruct (write w1 compressedRespBody) as [[e|] w2].
Qed.

(** A call either leaves the counter alone or assigns the next number, and
    it adds no pending entry but the one for that number. *)
Lemma exec_state (s : serverCodec.t (V:=V)) (c : serverCodec.call) :
  let '(assigned, s') := exec s c in
  match assigned with
  | Some n => n = uint64 (serverCodec.seq s + 1) ∧ serverCodec.seq s' = n ∧
              is_Some (serverCodec.pending s' !! n)
  | None => serverCodec.seq s' = serverCodec.seq s
  end ∧
  ∀ k, is_Some (serverCodec.pending s' !! k) →
       is_Some (serverCodec.pending s !! k) ∨ assigned = Some k.
Proof.
  destruct c as [req|param|response param]; simpl.
  - unfold serverCodec.ReadRequestHeader.
    destruct (recvFrame _) as [[data [e|]] r]; simpl; [by eauto|].
    destruct (Unmarshal requestCoding _ data) as [[e|] h]; simpl; [by eauto|].
    split.
    + split; [done|]. split; [done|]. rewrite lookup_insert_eq. by eexists.
    + intros k Hk.
      destruct (decide (uint64 (serverCodec.seq s + 1) = k)) as [->|Hne]; [by right|].
      rewrite lookup_insert_ne in Hk by done. by left.
  - destruct (ReadRequestBody_state s param) as [-> ->]. eauto.
  - destruct (WriteResponse_state s response param) as [-> ?]. eauto.
Qed.

Lemma run_assigned (calls : list serverCodec.call) :
  ∀ s : serverCodec.t (V:=V),
    serverCodec.seq s + N.of_nat (length calls) < 2 ^ 64 →
    let '(assigned, s') := run s calls in
    assigned = map (λ k, serverCodec.seq s + N.of_nat k) (seq 1 (length assigned)) ∧
    serverCodec.seq s' = serverCodec.seq s + N.of_nat (length assigned) ∧
    (length assigned ≤ length calls)%nat ∧
    ∀ k, is_Some (serverCodec.pending s' !! k) →
         is_Some (serverCodec.pending s !! k) ∨ k ∈ assigned.
Proof.
  induction calls as [|c calls IH]; intros s Hlt; simpl.
  - rewrite N.add_0_r. eauto.
  - pose proof (exec_state s c) as Hexec.
    destruct (exec s c) as [a s1]. destruct Hexec as [Hseq Hpend].
    specialize (IH s1).
    destruct (run s1 calls) as [rest s2].
    simpl in Hlt.
    destruct a as [n|].
    + destruct Hseq as (Hn & Hs1 & _).
      rewrite uint64_small in Hn by lia. subst n.
      destruct IH as (Hrest & Hs2 & Hlen & Hp2); [lia|].
      rewrite Hs1 in *. simpl.
      split; [|split; [lia|split; [lia|]]].
      * change (N.of_nat 1) with 1. f_equal. rewrite Hrest at 1.
        rewrite <- (seq_shift (length rest) 1), map_map.
        apply map_ext. intros k. lia.
      * intros k Hk. destruct (Hp2 k Hk) as [H1|H1].
        -- destruct (Hpend k H1) as [?|[= <-]]; [by left|]. right. left.
        -- right. by right.
    + rewrite Hseq in IH.
      destruct IH as (Hrest & Hs2 & Hlen & Hp2); [lia|].
      split; [done|]. split; [done|]. split; [lia|].
      intros k Hk. destruct (Hp2 k Hk) as [H1|H1]; [|by right].
      destruct (Hpend k H1) as [?|[=]]. by left.
Qed.

(** C3.  On a fresh connection, whatever calls the dispatcher makes, the
    sequence numbers assigned by the [ReadRequestHeader] calls that returned
    nil are 1, 2, ..., N in this order (N being their number, below 2^64):
    they are pairwise distinct, the counter ends at N, and every entry of the
    pending map is filed under one of them.  From the state so reached the
    next [ReadRequestHeader] returns nil whenever it receives a frame that
    decodes, and when it returns nil it has assigned N + 1, a number under
    which nothing was pending, made it the counter, and filed the id and the
    compress type of the request it decoded under it, so that the number
    identifies this request among those in flight. *)
Theorem server_sequence_numbers
    (r : Reader) (w : Writer) (serializer : Serializer.t V)
    (calls : list serverCodec.call) :
  N.of_nat (length calls) < 2 ^ 64 →
  let '(assigned, s') := run (serverCodec.NewServerCodec r w serializer) calls in
  assigned = map N.of_nat (seq 1 (length assigned)) ∧
  NoDup assigned ∧
  serverCodec.seq s' = N.of_nat (length assigned) ∧
  (∀ k, is_Some (serverCodec.pending s' !! k) → k ∈ assigned) ∧
  (N.of_nat (length assigned) + 1 < 2 ^ 64 →
   ∀ req : Request.t,
     (∀ data r1 h,
        recvFrame (serverCodec.reader s') = (data, None, r1) →
        Unmarshal requestCoding RequestHeader.zero data = (None, h) →
        ∃ s'',
          ReadRequestHeader s' req =
            (None,
             Request.mk (RequestHeader.Method h) (N.of_nat (length assigned) + 1),
             s'') ∧
          serverCodec.request s'' = h ∧
          serverCodec.reader s'' = r1) ∧
     (∀ req' s'',
        ReadRequestHeader s' req = (None, req', s'') →
        Request.Seq req' = N.of_nat (length assigned) + 1 ∧
        serverCodec.seq s'' = N.of_nat (length assigned) + 1 ∧
        Request.ServiceMethod req' = RequestHeader.Method (serverCodec.request s'') ∧
        serverCodec.pending s' !! Request.Seq req' = None ∧
        serverCodec.pending s'' =
          <[Request.Seq req' :=
              serverCodec.mkReqCtx
                (RequestHeader.ID (serverCodec.request s''))
                (RequestHeader.GetCompressType (serverCodec.request s''))]>
            (serverCodec.pending s'))).
Proof.
  intros Hlen.
  pose proof (run_assigned calls (serverCodec.NewServerCodec r w serializer)) as H.
  destruct (run _ calls) as [assigned s']. simpl in H.
  destruct H as (Ha & Hs & _ & Hp); [lia|].
  assert (Heq : assigned = map N.of_nat (seq 1 (length assigned))).
  { rewrite Ha at 1. apply map_ext. intros k. lia. }
  assert (Hkeys : ∀ k, is_Some (serverCodec.pending s' !! k) → k ∈ assigned).
  { intros k Hk. destruct (Hp k Hk) as [[x Hx]|?]; [|done].
    by rewrite lookup_empty in Hx. }
  split; [done|]. split; [|split; [lia|split; [done|]]].
  - rewrite Heq. apply (NoDup_fmap_2 N.of_nat). apply NoDup_seq.
  - intros Hb req.
    assert (Hs' : serverCodec.seq s' + 1 = N.of_nat (length assigned) + 1) by lia.
    assert (Hfresh : serverCodec.pending s' !! (N.of_nat (length assigned) + 1) = None).
    { destruct (serverCodec.pending s' !! (N.of_nat (length assigned) + 1)) as [x|] eqn:Hx;
        [|done].
      exfalso. assert (Hin : N.of_nat (length assigned) + 1 ∈ assigned)
        by (apply Hkeys; by eexists).
      assert (Hin' : N.of_nat (length assigned) + 1
                     ∈ map N.of_nat (seq 1 (length assigned)))
        by (by rewrite <- Heq).
      apply list_elem_of_fmap in Hin' as (k & Hk & Hin').
      apply elem_of_seq in Hin'. lia. }
    split.
    + intros data r1 h Hrecv Hun.
      unfold serverCodec.ReadRequestHeader. simpl. rewrite Hrecv. simpl.
      unfold RequestHeader.ResetHeader. rewrite Hun. simpl.
      rewrite Hs', uint64_small by done. eexists. split; [reflexivity|]. done.
    + intros req' s''. unfold serverCodec.ReadRequestHeader.
      destruct (recvFrame _) as [[data [e|]] r1]; simpl; [done|].
      destruct (Unmarshal requestCoding _ data) as [[e|] h]; simpl; [done|].
      rewrite Hs', uint64_small by done.
      intros [= <- <-]. simpl. done.
Qed.

End ServerCodec.

Lemma read_request_body_unknown_compressor_witness :
  let '(err, _, s') :=
    serverCodec.ReadRequestBody Fixture.Compressors (Fixture.at_request 0 999) (Some []) in
  (∃ got, unread (serverCodec.reader (Fixture.at_request 0 999))
            = got ++ unread (serverCodec.reader s') ∧
          N.of_nat (length got)
            ≤ RequestHeader.RequestLen (serverCodec.request (Fixture.at_request 0 999))) ∧
  (∀ target reqBody r,
     Some (@nil byte) = Some target →
     read (serverCodec.reader (Fixture.at_request 0 999))
          (serverCodec.reqBuffer (Fixture.at_request 0 999)) = (None, reqBody, r) →
     RequestHeader.Checksum (serverCodec.request (Fixture.at_request 0 999)) = 0 ∨
       ChecksumIEEE reqBody
         = RequestHeader.Checksum (serverCodec.request (Fixture.at_request 0 999)) →
     err = Some NotFoundCompressorError ∧
     unread (serverCodec.reader (Fixture.at_request 0 999))
       = reqBody ++ unread (serverCodec.reader s') ∧
     N.of_nat (length reqBody)
       = RequestHeader.RequestLen (serverCodec.request (Fixture.at_request 0 999))).
Proof.
  apply (read_request_body_unknown_compressor Fixture.Compressors
           (Fixture.at_request 0 999) (Some [])).
  vm_compute. reflexivity.
Defined.

(** C9, as stated, fails: with the unregistered compress type 999 in the
    header, a body whose checksum does not match is answered with
    [UnexpectedChecksumError], and a body read with a nil target returns
    nil. *)
Lemma read_request_body_counterexample :
  ¬ serverCodec.spec_unknown_compressor_rejected Fixture.Compressors
      (Fixture.at_request 5 999) (Some []) ∧
  ¬ serverCodec.spec_unknown_compressor_rejected Fixture.Compressors
      (Fixture.at_request 0 999) None.
Proof.
  split; intros H.
  - assert (Hreg : Fixture.Compressors !!
                     RequestHeader.GetCompressType
                       (serverCodec.request (Fixture.at_request 5 999)) = None)
      by (vm_compute; reflexivity).
    specialize (H Hreg). vm_compute in H. discriminate.
  - assert (Hreg : Fixture.Compressors !!
                     RequestHeader.GetCompressType
                       (serverCodec.request (Fixture.at_request 0 999)) = None)
      by (vm_compute; reflexivity).
    specialize (H Hreg). vm_compute in H. discriminate.
Qed.

Example read_request_body_not_found :
  fst (fst (serverCodec.ReadRequestBody Fixture.Compressors
              (Fixture.at_request 0 999) (Some [])))
  = Some NotFoundCompressorError.
Proof. vm_compute. reflexivity. Qed.

(** C2, as stated, fails: with the framing compressor remembered for the
    request, an error reply is followed on the wire by the two bytes that
    [Zip] makes of the empty buffer. *)
Lemma write_response_counterexample :
  ¬ serverCodec.spec_error_body_empty Fixture.Compressors Fixture.responseCoding
      (Fixture.at_request 0 1)
      (Response.mk "Arith.Multiply" 1 "division by zero") (Some [x2a]).
Proof.
  intros H.
  specialize (H (snd (serverCodec.WriteResponse Fixture.Compressors
                        Fixture.responseCoding (Fixture.at_request 0 1)
                        (Response.mk "Arith.Multiply" 1 "division by zero")
                        (Some [x2a])))).
  assert (Hbody : Some [x1f; x8b] = Some (@nil byte)); [|discriminate].
  apply H; [vm_compute; reflexivity|discriminate].
Qed.

Lemma write_response_header_witness :
  let s := Fixture.at_request 0 1 in
  let response := Response.mk "Arith.Multiply" 1 EmptyString in
  let s' := snd (serverCodec.WriteResponse Fixture.Compressors Fixture.responseCoding
                   s response (Some [x2a])) in
  ∃ comp respBody compressedRespBody,
    Fixture.Compressors !! 1 = Some comp ∧
    Zip comp respBody = inl compressedRespBody ∧
    (respBody = [] ∧ (Response.Error response ≠ EmptyString ∨ Some [x2a] = None) ∨
     Response.Error response = EmptyString ∧
       ∃ v, Some [x2a] = Some v ∧
            Serializer.Marshal (serverCodec.serializer s) v = inl respBody) ∧
    let h := serverCodec.responseHeader (serverCodec.mkReqCtx 7 1) response
               compressedRespBody in
    written (serverCodec.writer s') =
      written (serverCodec.writer s) ++ frame (Marshal Fixture.responseCoding h)
        ++ compressedRespBody ∧
    ResponseHeader.ID h = 7 ∧
    ResponseHeader.Error h = Response.Error response ∧
    ResponseHeader.ResponseLen h = N.of_nat (length compressedRespBody) mod 2 ^ 32 ∧
    (N.of_nat (length compressedRespBody) < 2 ^ 32 →
     ResponseHeader.ResponseLen h = N.of_nat (length compressedRespBody)) ∧
    ResponseHeader.Checksum h = ChecksumIEEE compressedRespBody ∧
    ResponseHeader.CompressType h = 1 ∧
    serverCodec.pending s' = delete 1 (serverCodec.pending s).
Proof.
  apply (write_response_header Fixture.Compressors Fixture.responseCoding
           (Fixture.at_request 0 1)
           (snd (serverCodec.WriteResponse Fixture.Compressors Fixture.responseCoding
                   (Fixture.at_request 0 1)
                   (Response.mk "Arith.Multiply" 1 EmptyString) (Some [x2a])))
           (Response.mk "Arith.Multiply" 1 EmptyString) (Some [x2a])
           (serverCodec.mkReqCtx 7 1)).
  - vm_compute. constructor.
  - vm_compute. reflexivity.
  - vm_compute. reflexivity.
Defined.

Lemma server_sequence_numbers_witness :
  let res :=
    serverCodec.run Fixture.Compressors Fixture.requestCoding Fixture.responseCoding
      (serverCodec.NewServerCodec
         (Fixture.source (Fixture.call_bytes (ChecksumIEEE [x2a]) 0
                            ++ Fixture.call_bytes 0 1))
         Fixture.sink Fixture.Bytes)
      (take 3 Fixture.two_calls) in
  fst res = map N.of_nat (seq 1 (length (fst res))) ∧
  NoDup (fst res) ∧
  serverCodec.seq (snd res) = N.of_nat (length (fst res)) ∧
  (∀ k, is_Some (serverCodec.pending (snd res) !! k) → k ∈ fst res) ∧
  ∃ s'',
    serverCodec.ReadRequestHeader Fixture.requestCoding (snd res)
      (Request.mk EmptyString 0)
    = (None, Request.mk "Arith.Multiply" (N.of_nat (length (fst res)) + 1), s'') ∧
    serverCodec.request s'' = RequestHeader.mk 7 "Arith.Multiply" 1 1 0 ∧
    serverCodec.seq s'' = N.of_nat (length (fst res)) + 1 ∧
    serverCodec.pending (snd res) !! (N.of_nat (length (fst res)) + 1) = None ∧
    serverCodec.pending s'' !! (N.of_nat (length (fst res)) + 1)
      = Some (serverCodec.mkReqCtx 7 1).
Proof.
  intros res.
  pose proof (server_sequence_numbers Fixture.Compressors Fixture.requestCoding
                Fixture.responseCoding
                (Fixture.source (Fixture.call_bytes (ChecksumIEEE [x2a]) 0
                                   ++ Fixture.call_bytes 0 1))
                Fixture.sink Fixture.Bytes (take 3 Fixture.two_calls)) as H0.
  assert (Hlen : N.of_nat (length (take 3 (Fixture.two_calls))) < 2 ^ 64)
    by (vm_compute; reflexivity).
  specialize (H0 Hlen). fold res in H0.
  rewrite (surjective_pairing res) in H0. cbv beta iota in H0.
  destruct H0 as (H1 & H2 & H3 & H4 & H5).
  split; [exact H1|]. split; [exact H2|]. split; [exact H3|]. split; [exact H4|].
  assert (Hb : N.of_nat (length (fst res)) + 1 < 2 ^ 64) by (vm_compute; reflexivity).
  destruct (H5 Hb (Request.mk EmptyString 0)) as [Hpos Hneg].
  destruct (Hpos (Marshal Fixture.requestCoding
                    (RequestHeader.mk 7 "Arith.Multiply" 1 1 0))
                 (Fixture.source [x2a])
                 (RequestHeader.mk 7 "Arith.Multiply" 1 1 0))
    as (s'' & Hrun & Hreq & _).
  - vm_compute. reflexivity.
  - vm_compute. reflexivity.
  - destruct (Hneg _ _ Hrun) as (_ & Hseq & _ & Hfresh & Hpend).
    exists s''. split; [exact Hrun|]. split; [exact Hreq|]. split; [exact Hseq|].
    split; [exact Hfresh|].
    rewrite Hpend, Hreq. apply lookup_insert_eq.
Defined.

Example two_calls_assigned :
  fst (serverCodec.run Fixture.Compressors Fixture.requestCoding Fixture.responseCoding
         (Fixture.listening (Fixture.call_bytes (ChecksumIEEE [x2a]) 0
                               ++ Fixture.call_bytes 0 1))
         Fixture.two_calls)
  = [1; 2].
Proof. vm_compute. reflexivity. Qed.

(** ** Body reads with a nil target *)

Section NilTarget.
Context {V : Type}.
Variable Compressors : gmap N Compressor.


End NilTarget.


(** ** Test vectors *)

Example ChecksumIEEE_check :
  ChecksumIEEE [x31; x32; x33; x34; x35; x36; x37; x38; x39] = 0xcbf43926.
Proof. vm_compute. reflexivity. Qed.

Example ChecksumIEEE_empty : ChecksumIEEE [] = 0.
Proof. vm_compute. reflexivity. Qed.

Example PutUvarint_300 : PutUvarint 300 = [xac; x02].
Proof. vm_compute. reflexivity. Qed.

Example PutUvarint_max : length (PutUvarint (2 ^ 64 - 1)) = 10%nat.
Proof. vm_compute. reflexivity. Qed.

Example recvFrame_short_reads :
  recvFrame (mkReader (frame [x01; x02; x03] ++ [xff])
                      [(1%nat, None); (1%nat, None); (1%nat, None)])
  = ([x01; x02; x03], None, mkReader [xff] []).
Proof. vm_compute. reflexivity. Qed.

(** * Further properties of the framing helpers *)

Lemma write_loop_prefix (fuel : nat) (w w' : Writer) (data : list byte)
    (index : nat) (res : option error) :
  write_loop fuel w data index = Some (res, w') →
  ∃ k, written w' = written w ++ take k (drop index data).
Proof.
  revert w index. induction fuel as [|fuel IH]; intros w index; simpl;
    destruct (index <? length data)%nat; try done;
    try (intros [= <- <-]; exists 0%nat; by rewrite take_0, app_nil_r).
  unfold Write. destruct (wscript w) as [|[n e] sc]; simpl.
  - intros [= <- <-]. exists (length (drop index data)). simpl.
    by rewrite firstn_all.
  - destruct (is_net_Error e); simpl.
    + intros H. apply IH in H as [k ->]. simpl.
      exists (Nat.min n (length (drop index data)) + k)%nat.
      by rewrite <- app_assoc, <- drop_drop, take_take_drop.
    + intros [= <- <-]. simpl. eauto.
Qed.

(** X1.  Whatever the writer does (short counts, errors, retries), [write]
    extends the wire by a prefix of [data]: after a partial write it goes on
    at the first byte that was not accepted, so no byte is sent twice or
    skipped. *)
Theorem write_appends_prefix (w : Writer) (data : list byte) :
  ∃ k, (k ≤ length data)%nat ∧
       written (snd (write w data)) = written w ++ take k data.
Proof.
  pose proof (write_unfold w data) as Hu.
  destruct (write w data) as [res w'].
  apply write_loop_prefix in Hu as [k Hk]. rewrite drop_0 in Hk.
  exists (Nat.min k (length data)). split; [lia|]. simpl.
  rewrite Hk. f_equal.
  destruct (Nat.le_ge_cases k (length data)).
  - by rewrite Nat.min_l.
  - rewrite Nat.min_r by done. by rewrite !take_ge.
Qed.

(** On a writer that keeps the contract every outcome leaves a prefix on
    the wire, the whole buffer for a nil result. *)
Lemma write_compliant (w w' : Writer) (data : list byte) (res : option error) :
  compliant w → write w data = (res, w') →
  ∃ k, (k ≤ length data)%nat ∧
       written w' = written w ++ take k data ∧
       (res = None → k = length data ∧ compliant w').
Proof.
  intros Hc Hw.
  destruct res as [e|].
  - pose proof (write_unfold w data) as Hu. rewrite Hw in Hu.
    apply write_loop_prefix in Hu as [k Hk]. rewrite drop_0 in Hk.
    exists (Nat.min k (length data)). split; [lia|]. split; [|done].
    rewrite Hk. f_equal.
    destruct (Nat.le_ge_cases k (length data)).
    + by rewrite Nat.min_l.
    + rewrite Nat.min_r by done. by rewrite !take_ge.
  - apply write_written in Hw as [-> ?]; [|done].
    exists (length data). by rewrite firstn_all.
Qed.

(** X2.  On a writer that keeps the [io.Writer] contract, [sendFrame]
    extends the wire by a prefix of the frame [varint(len) | data], whatever
    its outcome, and by the whole frame when it returns nil: no byte of
    [data] goes out unless the length went out in full before it. *)
Theorem sendFrame_appends_prefix (w : Writer) (data : list byte) :
  compliant w →
  ∃ k, (k ≤ length (frame data))%nat ∧
       written (snd (sendFrame w data)) = written w ++ take k (frame data) ∧
       (fst (sendFrame w data) = None → k = length (frame data)).
Proof.
  intros Hc. unfold sendFrame, frame.
  destruct (length data =? 0)%nat eqn:Hlen.
  - apply Nat.eqb_eq in Hlen. rewrite Hlen.
    apply length_zero_iff_nil in Hlen. subst data. rewrite app_nil_r.
    destruct (write w _) as [res w1] eqn:Hw.
    apply write_compliant in Hw as (k & Hk & Hwr & Hok); [|done].
    exists k. simpl. split; [done|]. split; [done|]. intros ->. by apply Hok.
  - destruct (write w _) as [[e|] w1] eqn:Hw1;
      apply write_compliant in Hw1 as (k1 & Hk1 & Hwr1 & Hok1); try done.
    + exists k1. simpl. rewrite length_app. split; [lia|].
      split; [|done]. by rewrite take_app_le.
    + destruct (Hok1 eq_refl) as [-> Hc1].
      rewrite firstn_all in Hwr1.
      destruct (write w1 data) as [res w2] eqn:Hw2.
      apply write_compliant in Hw2 as (k2 & Hk2 & Hwr2 & Hok2); [|done].
      exists (length (PutUvarint (uint64 (N.of_nat (length data)))) + k2)%nat.
      simpl. rewrite length_app. split; [lia|]. split.
      * by rewrite Hwr2, Hwr1, take_app_add, <- app_assoc.
      * intros ->. destruct (Hok2 eq_refl) as [-> _]. done.
Qed.

Lemma sendFrame_appends_prefix_witness :
  ∃ k, (k ≤ length (frame [x68; x69]))%nat ∧
       written (snd (sendFrame (mkWriter [] [(2%nat, Some (IOFail "broken pipe"))])
                               [x68; x69]))
         = [] ++ take k (frame [x68; x69]) ∧
       (fst (sendFrame (mkWriter [] [(2%nat, Some (IOFail "broken pipe"))])
                       [x68; x69]) = None →
        k = length (frame [x68; x69])).
Proof.
  apply (sendFrame_appends_prefix
           (mkWriter [] [(2%nat, Some (IOFail "broken pipe"))]) [x68; x69]).
  constructor; [discriminate|constructor].
Defined.

(** An error-free stream that runs out before the buffer is full ends the
    loop with [io.EOF], the bytes it had stored behind those of before. *)
Lemma read_loop_short (fuel : nat) (r : Reader) (data : list byte) (index : nat) :
  error_free r →
  (index ≤ length data)%nat →
  (length (unread r) < length data - index)%nat →
  (length (rscript r) + (length data - index) ≤ fuel)%nat →
  ∃ r', read_loop fuel r data index =
          Some (Some (Transport EOF),
                take index data ++ unread r
                  ++ drop (index + length (unread r)) data,
                r') ∧
        unread r' = [].
Proof.
  revert r data index. induction fuel as [|fuel IH]; intros r data index Hf Hi Hu Hfuel;
    [lia|].
  simpl. destruct (Nat.ltb_spec index (length data)) as [Hlt|?]; [|lia].
  destruct (Read_inv r (length data - index)) as (m & Hm & Hchunk & Hun & Hsc & Hdef).
  pose proof (Read_err r (length data - index)) as Herr.
  destruct (Read r (length data - index)) as [[chunk err] r1]. simpl in *. subst chunk.
  assert (Herr' : err = match unread r with [] => Some EOF | _ => None end).
  { rewrite Herr. destruct (rscript r) as [|[k [e|]] sc] eqn:Hr; try done.
    unfold error_free in Hf. rewrite Hr in Hf. by inversion Hf. }
  clear Herr.
  assert (Hf1 : error_free r1).
  { unfold error_free in *. rewrite Hsc.
    destruct (rscript r); simpl; [constructor|by inversion Hf]. }
  destruct (unread r) as [|b bs] eqn:Hur; subst err; simpl.
  - exists r1. rewrite take_nil, Nat.add_0_r. split.
    + unfold store. simpl. by rewrite Nat.add_0_r.
    + by rewrite Hun, drop_nil.
  - set (chunk := take m (b :: bs)) in *.
    assert (Hcl : (length chunk ≤ length data - index)%nat)
      by (unfold chunk; rewrite length_take; simpl in *; lia).
    assert (Hck : (length chunk + length (drop m (b :: bs)) = S (length bs))%nat).
    { unfold chunk. rewrite length_take, length_drop. simpl. lia. }
    destruct (IH r1 (store data index chunk) (index + length chunk)%nat)
      as (r' & Hrun & Hr');
      try done.
    + rewrite store_length; lia.
    + rewrite store_length by lia. rewrite Hun. simpl in *. lia.
    + rewrite store_length by lia. rewrite Hsc.
      destruct (rscript r) as [|st sc] eqn:Hr; simpl in *; [|lia].
      unfold chunk in *. rewrite (Hdef eq_refl) in *.
      rewrite length_take in *. simpl in *. lia.
    + exists r'. split; [|done]. rewrite Hrun. do 2 f_equal.
      rewrite take_store by lia. rewrite Hun.
      rewrite <- !app_assoc. f_equal.
      rewrite (app_assoc chunk). unfold chunk at 1. rewrite take_drop. f_equal.
      unfold store. rewrite app_assoc, drop_app_ge;
        rewrite length_app, length_take; [|lia].
      rewrite drop_drop. simpl. do 3 f_equal. simpl in *. lia.
Qed.

(** X3.  A body cut short by the end of the stream.  When an error-free
    stream holds fewer bytes than the buffer it is to fill, [read] returns
    [io.EOF] (the plain end-of-stream error, not [io.ErrUnexpectedEOF]): the
    bytes that did arrive are at the front of the buffer, the rest of the
    buffer is as the caller passed it, and the stream is drained.  This is
    the error a body read reports for a request or response whose body is
    shorter than its header declares. *)
Theorem read_truncated (r : Reader) (data : list byte) :
  error_free r → (length (unread r) < length data)%nat →
  ∃ r', read r data =
          (Some (Transport EOF),
           unread r ++ drop (length (unread r)) data,
           r') ∧
        unread r' = [].
Proof.
  intros Hf Hu.
  destruct (read_loop_short (length (rscript r) + length data) r data 0)
    as (r' & Hrun & Hr'); try done; try lia.
  rewrite read_unfold in Hrun. injection Hrun as Hrun. eauto.
Qed.

Lemma read_truncated_witness :
  ∃ r', read (mkReader [x61; x62] [(1%nat, None)]) [x00; x00; x00]
        = (Some (Transport EOF), [x61; x62] ++ drop (length [x61; x62]) [x00; x00; x00], r') ∧
        unread r' = [].
Proof.
  apply (read_truncated (mkReader [x61; x62] [(1%nat, None)]) [x00; x00; x00]).
  - repeat constructor.
  - simpl. lia.
Defined.

Lemma ReadByte_end (r : Reader) :
  error_free r → unread r = [] →
  ReadByte r = (x00, Some EOF, mkReader [] (tail (rscript r))).
Proof.
  unfold error_free, ReadByte. intros Hf ->.
  destruct (rscript r) as [|[k [e|]] sc]; simpl; try done.
  by inversion Hf.
Qed.

(** Reading through the continuation bytes [bs] of a length prefix. *)
Lemma ReadUvarint_loop_continuation (bs : list byte) :
  ∀ (n : nat) (i s x : N) (r : Reader) (rest : list byte),
    error_free r → unread r = bs ++ rest →
    Forall (λ b, (Byte.to_N b <? 0x80) = false) bs →
    ∃ x' r',
      ReadUvarint_loop (length bs + n) i s x r =
        ReadUvarint_loop n (i + N.of_nat (length bs)) (s + 7 * N.of_nat (length bs)) x' r' ∧
      unread r' = rest ∧ error_free r'.
Proof.
  induction bs as [|b bs IH]; intros n i s x r rest Hf Hu Hc.
  - exists x, r. simpl. by rewrite !N.add_0_r.
  - inversion Hc as [|? ? Hb Hc']; subst.
    destruct (ReadByte_next r b (bs ++ rest) Hf Hu) as [HR Hf'].
    simpl length. simpl ReadUvarint_loop. rewrite HR, Hb.
    destruct (IH n (i + 1) (s + 7)
                 (N.lor x (uint64 (N.shiftl (N.land (Byte.to_N b) 0x7f) s)))
                 (mkReader (bs ++ rest) (tail (rscript r))) rest)
      as (x' & r' & Hrun & Hrest & Hfree); try done.
    exists x', r'. rewrite Hrun. split; [|done].
    f_equal; lia.
Qed.

(** X4.  A stream that ends before the length prefix is complete: at the
    very start [recvFrame] returns [io.EOF], the clean end of a connection;
    after one to nine continuation bytes it returns [io.ErrUnexpectedEOF]. *)
Theorem recvFrame_truncated_length (r : Reader) :
  error_free r →
  Forall (λ b, (Byte.to_N b <? 0x80) = false) (unread r) →
  (length (unread r) < 10)%nat →
  ∃ r', recvFrame r =
          ([],
           Some (Transport (match unread r with
                            | [] => EOF
                            | _ :: _ => ErrUnexpectedEOF
                            end)),
           r').
Proof.
  intros Hf Hc Hlen.
  destruct (ReadUvarint_loop_continuation (unread r) (10 - length (unread r)) 0 0 0 r [])
    as (x' & r1 & Hrun & Hu1 & Hf1); try done.
  { by rewrite app_nil_r. }
  unfold recvFrame, ReadUvarint. change (N.to_nat MaxVarintLen64) with 10%nat.
  replace (length (unread r) + (10 - length (unread r)))%nat with 10%nat in Hrun by lia.
  rewrite Hrun.
  destruct (10 - length (unread r))%nat as [|m] eqn:Hm; [lia|].
  simpl. rewrite (ReadByte_end r1 Hf1 Hu1).
  destruct (unread r) as [|b bs]; simpl; [by eauto|].
  replace (0 <? 0 + N.pos (Pos.of_succ_nat (length bs))) with true
    by (symmetry; apply N.ltb_lt; lia).
  simpl. eauto.
Qed.

Lemma recvFrame_truncated_length_witness :
  ∃ r', recvFrame (Fixture.source [xac]) = ([], Some (Transport ErrUnexpectedEOF), r').
Proof.
  apply (recvFrame_truncated_length (Fixture.source [xac])).
  - constructor.
  - repeat constructor.
  - simpl. lia.
Defined.

(** X5.  A length prefix that does not fit 64 bits is refused: when the
    first ten bytes are all continuation bytes, or the first nine are and the
    tenth is above 1, [recvFrame] returns the overflow error of
    [binary.ReadUvarint] having taken those ten bytes and nothing more, and
    reads no body. *)
Theorem recvFrame_overflow (bs : list byte) (b : byte) (rest : list byte) (r : Reader) :
  error_free r →
  unread r = bs ++ b :: rest →
  length bs = 9%nat →
  Forall (λ b, (Byte.to_N b <? 0x80) = false) bs →
  1 < Byte.to_N b →
  ∃ r', recvFrame r = ([], Some errOverflow, r') ∧ unread r' = rest.
Proof.
  intros Hf Hu Hlen Hc Hb.
  destruct (ReadUvarint_loop_continuation bs 1 0 0 0 r (b :: rest))
    as (x' & r1 & Hrun & Hu1 & Hf1); try done.
  unfold recvFrame, ReadUvarint. change (N.to_nat MaxVarintLen64) with 10%nat.
  rewrite Hlen in Hrun. change (9 + 1)%nat with 10%nat in Hrun. rewrite Hrun.
  destruct (ReadByte_next r1 b rest Hf1 Hu1) as [HR _].
  simpl. rewrite HR.
  destruct (Byte.to_N b <? 128) eqn:Hsmall.
  - replace (1 <? Byte.to_N b) with true by (symmetry; by apply N.ltb_lt).
    simpl. eauto.
  - simpl. eauto.
Qed.

Lemma recvFrame_overflow_witness :
  ∃ r', recvFrame (Fixture.source (repeat xff 9 ++ x02 :: [x61]))
        = ([], Some errOverflow, r') ∧ unread r' = [x61].
Proof.
  apply (recvFrame_overflow (repeat xff 9) x02 [x61]
           (Fixture.source (repeat xff 9 ++ x02 :: [x61]))).
  - constructor.
  - reflexivity.
  - reflexivity.
  - repeat constructor.
  - vm_compute. reflexivity.
Defined.

(** ** The length prefix and the checksum *)

Lemma PutUvarint_loop_shape (f : nat) :
  ∀ x, x < 2 ^ (7 * (N.of_nat f + 1)) →
       ∃ init last,
         PutUvarint_loop f x = init ++ [last] ∧
         (length init ≤ f)%nat ∧
         Forall (λ b, (Byte.to_N b <? 0x80) = false) init ∧
         Byte.to_N last < 0x80 ∧
         (x < 0x80 → init = []).
Proof.
  induction f as [|f IH]; intros x Hx.
  - change (2 ^ (7 * (N.of_nat 0 + 1))) with 128 in Hx.
    exists [], (byte_of_N x). simpl. rewrite to_N_byte_of_N, N.mod_small by lia.
    repeat split; [lia|constructor|lia].
  - change (PutUvarint_loop (S f) x) with
      (if 0x80 <=? x
       then byte_of_N (N.lor (x mod 256) 0x80) :: PutUvarint_loop f (N.shiftr x 7)
       else [byte_of_N x]).
    destruct (N.leb_spec 0x80 x) as [Hbig|Hsmall].
    + destruct (IH (N.shiftr x 7)) as (init & last & Hput & Hlen & Hc & Hl & _).
      { rewrite N.shiftr_div_pow2. change (2 ^ 7) with 128.
        replace (7 * (N.of_nat (S f) + 1)) with (7 * (N.of_nat f + 1) + 7) in Hx by lia.
        rewrite N.pow_add_r in Hx. change (2 ^ 7) with 128 in Hx.
        apply N.Div0.div_lt_upper_bound. lia. }
      exists (byte_of_N (N.lor (x mod 256) 0x80) :: init), last.
      rewrite Hput. simpl. repeat split; try done; try lia.
      constructor; [|done]. by destruct (continuation x).
    + exists [], (byte_of_N x). simpl. rewrite to_N_byte_of_N, N.mod_small by lia.
      repeat split; [lia|constructor|lia].
Qed.

(** X6.  The length prefix written by [sendFrame] is self-delimiting and
    fits the ten-byte array reserved for it: for every 64-bit length it has
    one to ten bytes, all but the last with the high bit set and the last
    without, and a single byte for lengths under 128. *)
Theorem PutUvarint_shape (x : N) :
  x < 2 ^ 64 →
  ∃ init last,
    PutUvarint x = init ++ [last] ∧
    (length (PutUvarint x) ≤ 10)%nat ∧
    Forall (λ b, (Byte.to_N b <? 0x80) = false) init ∧
    Byte.to_N last < 0x80 ∧
    (x < 0x80 → PutUvarint x = [byte_of_N x]).
Proof.
  intros Hx.
  destruct (PutUvarint_loop_shape 9 x) as (init & last & Hput & Hlen & Hc & Hl & Hs).
  { change (2 ^ (7 * (N.of_nat 9 + 1))) with (2 ^ 64 * 64). lia. }
  exists init, last. unfold PutUvarint.
  change (N.to_nat MaxVarintLen64 - 1)%nat with 9%nat.
  rewrite Hput, length_app. simpl. repeat split; try done; try lia.
  intros Hsmall. rewrite <- Hput.
  change (PutUvarint_loop 9 x) with
    (if 0x80 <=? x
     then byte_of_N (N.lor (x mod 256) 0x80) :: PutUvarint_loop 8 (N.shiftr x 7)
     else [byte_of_N x]).
  by destruct (N.leb_spec 0x80 x); [lia|].
Qed.

Lemma PutUvarint_shape_witness :
  ∃ init last,
    PutUvarint 300 = init ++ [last] ∧
    (length (PutUvarint 300) ≤ 10)%nat ∧
    Forall (λ b, (Byte.to_N b <? 0x80) = false) init ∧
    Byte.to_N last < 0x80 ∧
    (300 < 0x80 → PutUvarint 300 = [byte_of_N 300]).
Proof. apply (PutUvarint_shape 300). vm_compute. reflexivity. Defined.

Lemma lxor_lt_32 (a b : N) : a < 2 ^ 32 → b < 2 ^ 32 → N.lxor a b < 2 ^ 32.
Proof.
  intros Ha Hb.
  assert (Hlog : ∀ c, c < 2 ^ 32 → N.log2 c < 32).
  { intros c Hc. destruct (N.eq_dec c 0) as [->|Hne]; [done|].
    apply N.log2_lt_pow2; lia. }
  destruct (N.eq_dec (N.lxor a b) 0) as [->|Hne]; [done|].
  apply N.log2_lt_pow2; [lia|].
  eapply N.le_lt_trans; [apply N.log2_lxor|].
  apply N.max_lub_lt; by apply Hlog.
Qed.

Lemma shiftr_lt_32 (c k : N) : c < 2 ^ 32 → N.shiftr c k < 2 ^ 32.
Proof.
  intros Hc. rewrite N.shiftr_div_pow2.
  apply N.Div0.div_lt_upper_bound.
  assert (0 < 2 ^ k) by (apply N.neq_0_lt_0, N.pow_nonzero; lia). nia.
Qed.

Lemma crc_shift_lt_32 (c : N) : c < 2 ^ 32 → crc_shift c < 2 ^ 32.
Proof.
  intros Hc. unfold crc_shift. destruct (N.testbit c 0).
  - apply lxor_lt_32; [by apply shiftr_lt_32|]. vm_compute. reflexivity.
  - by apply shiftr_lt_32.
Qed.

Lemma crc_update_lt_32 (c : N) (v : byte) : c < 2 ^ 32 → crc_update c v < 2 ^ 32.
Proof.
  intros Hc. unfold crc_update, IEEETable.
  apply lxor_lt_32; [|by apply shiftr_lt_32].
  assert (Hin : N.lxor (c mod 256) (Byte.to_N v) < 2 ^ 32).
  { apply lxor_lt_32.
    - pose proof (N.mod_upper_bound c 256). change (2 ^ 32) with 4294967296. lia.
    - pose proof (Byte.to_N_bounded v). change (2 ^ 32) with 4294967296. lia. }
  revert Hin. generalize (N.lxor (c mod 256) (Byte.to_N v)). intros i Hi.
  do 8 (apply crc_shift_lt_32). exact Hi.
Qed.

(** X7.  The CRC-32 that [WriteRequest] and [WriteResponse] store in the
    header is below 2^32 for every body: the [uint32] checksum field holds it
    as it is. *)
Theorem ChecksumIEEE_uint32 (p : list byte) : ChecksumIEEE p < 2 ^ 32.
Proof.
  unfold ChecksumIEEE.
  apply lxor_lt_32; [|vm_compute; reflexivity].
  assert (H : ∀ c, c < 2 ^ 32 → fold_left crc_update p c < 2 ^ 32).
  { induction p as [|v p IH]; intros c Hc; simpl; [done|].
    apply IH. by apply crc_update_lt_32. }
  apply H. vm_compute. reflexivity.
Qed.

(** * Further properties of the codecs *)

(** ** Readers after a call *)

Lemma read_loop_script (fuel : nat) (r r' : Reader) (data data' : list byte)
    (index : nat) (res : option error) :
  read_loop fuel r data index = Some (res, data', r') →
  ∃ k, rscript r' = drop k (rscript r).
Proof.
  revert r data index. induction fuel as [|fuel IH]; intros r data index; simpl;
    destruct (index <? length data)%nat; try done;
    try (intros [= <- <- <-]; by exists 0%nat).
  destruct (Read_inv r (length data - index)) as (m & _ & _ & _ & Hsc & _).
  destruct (Read r (length data - index)) as [[chunk err] r1]. simpl in *.
  assert (Hrec : read_loop fuel r1 (store data index chunk) (index + length chunk)
                 = Some (res, data', r') → ∃ k, rscript r' = drop k (rscript r)).
  { intros H. apply IH in H as [k ->]. exists (S k). rewrite Hsc.
    destruct (rscript r); simpl; by rewrite ?drop_nil. }
  destruct err as [e|]; [|done].
  destruct (is_net_Error (Some e)); simpl; [done|].
  intros [= <- <- <-]. exists 1%nat. rewrite Hsc. by destruct (rscript r).
Qed.

Lemma ReadUvarint_loop_script (n : nat) :
  ∀ (i s x : N) (r : Reader),
    ∃ k, rscript (snd (ReadUvarint_loop n i s x r)) = drop k (rscript r).
Proof.
  induction n as [|n IH]; intros i s x r; simpl; [by exists 0%nat|].
  assert (Hrb : rscript (snd (ReadByte r)) = drop 1 (rscript r)).
  { unfold ReadByte.
    destruct (rscript r) as [|[k [e|]] sc]; destruct (unread r); done. }
  destruct (ReadByte r) as [[b err] r1]. simpl in Hrb.
  assert (Hone : ∃ k, rscript r1 = drop k (rscript r)) by eauto.
  destruct err as [e|].
  - by destruct (_ && _).
  - destruct (Byte.to_N b <? 128).
    + by destruct (_ && _).
    + destruct (IH (i + 1) (s + 7)
                   (N.lor x (uint64 (N.shiftl (N.land (Byte.to_N b) 127) s))) r1)
        as [k ->].
      exists (1 + k)%nat. by rewrite Hrb, drop_drop.
Qed.

Lemma suffix_error_free (r r' : Reader) (k : nat) :
  error_free r → rscript r' = drop k (rscript r) → error_free r'.
Proof. unfold error_free. intros Hf ->. by apply Forall_drop. Qed.

(** A reader without scripted failures has none after [recvFrame]. *)
Lemma recvFrame_error_free (r : Reader) :
  error_free r → error_free (snd (recvFrame r)).
Proof.
  intros Hf. unfold recvFrame, ReadUvarint.
  destruct (ReadUvarint_loop_script (N.to_nat MaxVarintLen64) 0 0 0 r) as [k Hk].
  destruct (ReadUvarint_loop _ 0 0 0 r) as [[size err] r1]. simpl in Hk.
  assert (Hf1 : error_free r1) by (by eapply suffix_error_free).
  destruct err as [e|]; [done|].
  destruct (negb (size =? 0)); [|done].
  pose proof (read_unfold r1 (repeat x00 (N.to_nat size))) as Hu.
  destruct (read r1 _) as [[err data] r2].
  apply read_loop_script in Hu as [k2 Hk2].
  assert (error_free r2) by (by eapply suffix_error_free).
  by destruct err.
Qed.

Lemma read_error_free (r r' : Reader) (data data' : list byte) (res : option error) :
  error_free r → read r data = (res, data', r') → error_free r'.
Proof.
  intros Hf H. pose proof (read_unfold r data) as Hu. rewrite H in Hu.
  apply read_loop_script in Hu as [k Hk]. by eapply suffix_error_free.
Qed.

Lemma sendFrame_error (w w' : Writer) (data : list byte) (e : error) :
  sendFrame w data = (Some e, w') → ∃ e0, e = Transport e0.
Proof.
  unfold sendFrame. destruct (length data =? 0)%nat.
  - intros H. apply write_error in H as (e0 & -> & _). eauto.
  - destruct (write w _) as [[e1|] w1] eqn:Hw1.
    + intros [= <- <-]. apply write_error in Hw1 as (e0 & -> & _). eauto.
    + intros H. apply write_error in H as (e0 & -> & _). eauto.
Qed.

(** ** The client codec *)

Section ClientCodecMore.
Context {V : Type}.
Variable Compressors : gmap N Compressor.
Variable requestCoding : HeaderCoding RequestHeader.t.
Variable responseCoding : HeaderCoding ResponseHeader.t.

Abbreviation WriteRequest' := (clientCodec.WriteRequest (V:=V) Compressors requestCoding).
Abbreviation ReadResponseHeader' := (clientCodec.ReadResponseHeader (V:=V) responseCoding).
Abbreviation writeAll := (clientCodec.writeAll (V:=V) Compressors requestCoding).

Lemma WriteRequest_state (c : clientCodec.t (V:=V)) (r : Request.t) (param : V) :
  let '(err, c') := WriteRequest' c r param in
  clientCodec.pending c' =
    <[Request.Seq r := Request.ServiceMethod r]> (clientCodec.pending c) ∧
  clientCodec.reader c' = clientCodec.reader c ∧
  clientCodec.response c' = clientCodec.response c ∧
  clientCodec.compressor c' = clientCodec.compressor c ∧
  clientCodec.serializer c' = clientCodec.serializer c ∧
  (err = None ∨ (∃ e0, err = Some (Transport e0)) ∨
   clientCodec.writer c' = clientCodec.writer c).
Proof.
  unfold clientCodec.WriteRequest. simpl.
  destruct (Compressors !! clientCodec.compressor c) as [comp|]; simpl; [|by eauto 10].
  destruct (Serializer.Marshal _ param) as [reqBody|]; simpl; [|by eauto 10].
  destruct (Zip comp reqBody) as [compressedReqBody|]; simpl; [|by eauto 10].
  destruct (sendFrame _ _) as [[e|] w1] eqn:Hsend; simpl.
  - apply sendFrame_error in Hsend as [e0 ->]. eauto 10.
  - destruct (write w1 compressedReqBody) as [[e|] w2] eqn:Hwrite; simpl.
    + apply write_error in Hwrite as (e0 & -> & _). eauto 10.
    + eauto 10.
Qed.

(** X8.  Whatever [WriteRequest] returns, the pending map holds the entry
    of the request afterwards (a failed call does not take it back) and the
    read side of the codec is as before; a failure other than an error of the
    transport leaves the writer as it was, so nothing of the request went
    out. *)
Theorem write_request_bookkeeping
    (c : clientCodec.t (V:=V)) (r : Request.t) (param : V) :
  let '(err, c') := WriteRequest' c r param in
  clientCodec.pending c' =
    <[Request.Seq r := Request.ServiceMethod r]> (clientCodec.pending c) ∧
  clientCodec.reader c' = clientCodec.reader c ∧
  clientCodec.response c' = clientCodec.response c ∧
  (err = None ∨ (∃ e0, err = Some (Transport e0)) ∨
   clientCodec.writer c' = clientCodec.writer c).
Proof.
  pose proof (WriteRequest_state c r param) as H.
  destruct (WriteRequest' c r param) as [err c'].
  destruct H as (? & ? & ? & _ & _ & ?). done.
Qed.

Lemma writeAll_pending_other (calls : list (Request.t * V)) :
  ∀ (c : clientCodec.t (V:=V)) (k : N),
    k ∉ map (λ call, Request.Seq (fst call)) calls →
    clientCodec.pending (writeAll c calls) !! k = clientCodec.pending c !! k.
Proof.
  induction calls as [|[r param] calls IH]; intros c k Hk; simpl; [done|].
  simpl in Hk. apply not_elem_of_cons in Hk as [Hne Hk].
  rewrite IH by done.
  pose proof (WriteRequest_state c r param) as H.
  destruct (WriteRequest' c r param) as [err c']. destruct H as (Hp & _).
  simpl. by rewrite Hp, lookup_insert_ne.
Qed.

Lemma writeAll_pending (calls : list (Request.t * V)) :
  ∀ (c : clientCodec.t (V:=V)) (r : Request.t) (param : V),
    NoDup (map (λ call, Request.Seq (fst call)) calls) →
    (r, param) ∈ calls →
    clientCodec.pending (writeAll c calls) !! Request.Seq r
      = Some (Request.ServiceMethod r).
Proof.
  induction calls as [|[r0 p0] calls IH]; intros c r param Hnd Hin; simpl.
  - by apply elem_of_nil in Hin.
  - simpl in Hnd. apply NoDup_cons in Hnd as [Hfresh Hnd].
    apply elem_of_cons in Hin as [[= -> ->]|Hin].
    + rewrite writeAll_pending_other by done.
      pose proof (WriteRequest_state c r0 p0) as H.
      destruct (WriteRequest' c r0 p0) as [err c']. destruct H as (Hp & _).
      simpl. rewrite Hp. apply lookup_insert_eq.
    + by eapply IH.
Qed.

(** X9.  Method names survive pipelining: once the dispatcher has written
    any list of requests with pairwise distinct sequence numbers (whatever
    the calls returned), a response header that carries the id of one of them
    is resolved by [ReadResponseHeader] to the method of that very request,
    and its entry, and only it, leaves the pending map. *)
Theorem method_name_preserved
    (c : clientCodec.t (V:=V)) (calls : list (Request.t * V))
    (r : Request.t) (param : V) (resp : Response.t)
    (data : list byte) (rd : Reader) (h : ResponseHeader.t) :
  NoDup (map (λ call, Request.Seq (fst call)) calls) →
  (r, param) ∈ calls →
  recvFrame (clientCodec.reader (writeAll c calls)) = (data, None, rd) →
  Unmarshal responseCoding ResponseHeader.zero data = (None, h) →
  ResponseHeader.ID h = Request.Seq r →
  let '(err, resp', c') := ReadResponseHeader' (writeAll c calls) resp in
  err = None ∧
  resp' = Response.mk (Request.ServiceMethod r) (Request.Seq r) (ResponseHeader.Error h) ∧
  clientCodec.pending c' = delete (Request.Seq r) (clientCodec.pending (writeAll c calls)) ∧
  clientCodec.pending c' !! Request.Seq r = None.
Proof.
  intros Hnd Hin Hrecv Hun Hid.
  pose proof (writeAll_pending calls c r param Hnd Hin) as Hp.
  unfold clientCodec.ReadResponseHeader. simpl.
  rewrite Hrecv. simpl. unfold ResponseHeader.ResetHeader. rewrite Hun. simpl.
  rewrite Hid, Hp. simpl. repeat split. apply lookup_delete_eq.
Qed.

End ClientCodecMore.

Lemma method_name_preserved_witness :
  let c := clientCodec.writeAll Fixture.Compressors Fixture.requestCoding
             (Fixture.idle 0 0)
             [(Request.mk "Arith.Add" 6, [x01]); (Fixture.multiply, [x07; x06])] in
  let '(err, resp', c') :=
    clientCodec.ReadResponseHeader Fixture.responseCoding c
      (Response.mk EmptyString 0 EmptyString) in
  err = None ∧
  resp' = Response.mk "Arith.Multiply" 7 EmptyString ∧
  clientCodec.pending c' = delete 7 (clientCodec.pending c) ∧
  clientCodec.pending c' !! 7 = None.
Proof.
  apply (method_name_preserved Fixture.Compressors Fixture.requestCoding
           Fixture.responseCoding (Fixture.idle 0 0)
           [(Request.mk "Arith.Add" 6, [x01]); (Fixture.multiply, [x07; x06])]
           Fixture.multiply [x07; x06] (Response.mk EmptyString 0 EmptyString)
           (Marshal Fixture.responseCoding (ResponseHeader.mk 7 EmptyString 1 0 0))
           (Fixture.source [x2a])
           (ResponseHeader.mk 7 EmptyString 1 0 0)).
  - simpl. apply NoDup_cons. split; [|apply NoDup_singleton].
    intros Hin. apply list_elem_of_singleton in Hin. discriminate.
  - apply elem_of_cons. right. apply list_elem_of_singleton. reflexivity.
  - vm_compute. reflexivity.
  - vm_compute. reflexivity.
  - reflexivity.
Defined.

(** ** The server codec *)

Section ServerCodecMore.
Context {V : Type}.
Variable Compressors : gmap N Compressor.
Variable requestCoding : HeaderCoding RequestHeader.t.
Variable responseCoding : HeaderCoding ResponseHeader.t.

Abbreviation ReadRequestHeader' := (serverCodec.ReadRequestHeader (V:=V) requestCoding).
Abbreviation ReadRequestBody' := (serverCodec.ReadRequestBody (V:=V) Compressors).
Abbreviation WriteResponse' := (serverCodec.WriteResponse (V:=V) Compressors responseCoding).
Abbreviation run' := (serverCodec.run (V:=V) Compressors requestCoding responseCoding).

(** X10.  A header read that fails, on the frame or on its decoding,
    leaves the bookkeeping alone: the client keeps its pending map and the
    response record it was given, the server keeps its counter, its pending
    map and the request record, so no sequence number is used up. *)
Theorem header_read_failure
    (c : clientCodec.t (V:=V)) (resp : Response.t)
    (s : serverCodec.t (V:=V)) (req : Request.t) :
  (let '(err, resp', c') := clientCodec.ReadResponseHeader responseCoding c resp in
   err ≠ None →
   resp' = resp ∧ clientCodec.pending c' = clientCodec.pending c) ∧
  (let '(err, req', s') := ReadRequestHeader' s req in
   err ≠ None →
   req' = req ∧ serverCodec.seq s' = serverCodec.seq s ∧
   serverCodec.pending s' = serverCodec.pending s).
Proof.
  split.
  - unfold clientCodec.ReadResponseHeader.
    destruct (recvFrame _) as [[data [e|]] r]; simpl; [done|].
    destruct (Unmarshal responseCoding _ data) as [[e|] h]; simpl; done.
  - unfold serverCodec.ReadRequestHeader.
    destruct (recvFrame _) as [[data [e|]] r]; simpl; [done|].
    destruct (Unmarshal requestCoding _ data) as [[e|] h]; simpl; done.
Qed.

Lemma WriteResponse_found (s : serverCodec.t (V:=V)) (response : Response.t)
    (param : option V) (ctx : serverCodec.reqCtx) :
  serverCodec.pending s !! Response.Seq response = Some ctx →
  let '(err, s') := WriteResponse' s response param in
  err ≠ Some InvalidSequenceError ∧
  serverCodec.pending s' = delete (Response.Seq response) (serverCodec.pending s) ∧
  serverCodec.seq s' = serverCodec.seq s ∧
  serverCodec.reader s' = serverCodec.reader s.
Proof.
  intros Hp. unfold serverCodec.WriteResponse. rewrite Hp.
  destruct (Compressors !! _) as [comp|]; [|done].
  destruct (match (if negb _ then None else param) with
            | Some v => Serializer.Marshal _ v
            | None => inl []
            end) as [respBody|]; [|done].
  destruct (Zip comp respBody) as [compressedRespBody|]; [|done].
  destruct (sendFrame _ _) as [[e|] w1] eqn:Hsend.
  - apply sendFrame_error in Hsend as [e0 ->]. done.
  - destruct (write w1 compressedRespBody) as [[e|] w2] eqn:Hwrite; [|done].
    apply write_error in Hwrite as (e0 & -> & _). done.
Qed.

(** X11.  [WriteResponse] returns [InvalidSequenceError] exactly when the
    sequence number of the response is not in the pending map, and then the
    codec is unchanged: nothing is written and no entry is removed. *)
Theorem write_response_invalid_sequence
    (s : serverCodec.t (V:=V)) (response : Response.t) (param : option V) :
  (fst (WriteResponse' s response param) = Some InvalidSequenceError ↔
   serverCodec.pending s !! Response.Seq response = None) ∧
  (serverCodec.pending s !! Response.Seq response = None →
   snd (WriteResponse' s response param) = s).
Proof.
  destruct (serverCodec.pending s !! Response.Seq response) as [ctx|] eqn:Hp.
  - pose proof (WriteResponse_found s response param ctx Hp) as H.
    destruct (WriteResponse' s response param) as [err s']. destruct H as [Herr _].
    simpl. split; [|done]. split; [done|done].
  - unfold serverCodec.WriteResponse. rewrite Hp. done.
Qed.

(** X12.  A pending entry is used up by the first [WriteResponse] for its
    sequence number, whatever that call returns (also when the compressor is
    unknown, or marshalling or the transport fails): a second response with
    the same sequence number gets [InvalidSequenceError]. *)
Theorem write_response_once
    (s : serverCodec.t (V:=V)) (response response2 : Response.t)
    (param param2 : option V) (ctx : serverCodec.reqCtx) :
  serverCodec.pending s !! Response.Seq response = Some ctx →
  Response.Seq response2 = Response.Seq response →
  let s' := snd (WriteResponse' s response param) in
  serverCodec.pending s' !! Response.Seq response = None ∧
  fst (WriteResponse' s' response2 param2) = Some InvalidSequenceError.
Proof.
  intros Hp Hseq.
  pose proof (WriteResponse_found s response param ctx Hp) as H.
  destruct (WriteResponse' s response param) as [err s']. destruct H as (_ & Hdel & _).
  simpl.
  assert (Hnone : serverCodec.pending s' !! Response.Seq response = None)
    by (rewrite Hdel; apply lookup_delete_eq).
  split; [done|].
  unfold serverCodec.WriteResponse. by rewrite Hseq, Hnone.
Qed.

(** X13.  Pending integrity on the server.  On a fresh connection, after
    any run of calls, a [ReadRequestHeader] that returns nil followed by the
    [WriteResponse] for the sequence number it assigned puts the pending map
    back as it was before the request, whatever the write returns. *)
Theorem server_pending_restored
    (r : Reader) (w : Writer) (serializer : Serializer.t V)
    (calls : list serverCodec.call)
    (req req' : Request.t) (s1 : serverCodec.t (V:=V))
    (response : Response.t) (param : option V) :
  N.of_nat (length calls) + 1 < 2 ^ 64 →
  let s := snd (run' (serverCodec.NewServerCodec r w serializer) calls) in
  ReadRequestHeader' s req = (None, req', s1) →
  Response.Seq response = Request.Seq req' →
  Request.Seq req' = serverCodec.seq s + 1 ∧
  serverCodec.pending s !! Request.Seq req' = None ∧
  serverCodec.pending (snd (WriteResponse' s1 response param)) = serverCodec.pending s.
Proof.
  intros Hlen s.
  pose proof (run_assigned Compressors requestCoding responseCoding calls
                (serverCodec.NewServerCodec r w serializer)) as Hrun.
  subst s. destruct (run' _ calls) as [assigned s]. simpl in *.
  destruct Hrun as (Ha & Hs & Hle & Hp); [lia|].
  assert (Hfresh : serverCodec.pending s !! (serverCodec.seq s + 1) = None).
  { destruct (serverCodec.pending s !! (serverCodec.seq s + 1)) as [x|] eqn:Hx; [|done].
    exfalso. destruct (Hp (serverCodec.seq s + 1)) as [[y Hy]|Hin]; [by eexists| |].
    - by rewrite lookup_empty in Hy.
    - rewrite Ha in Hin. apply list_elem_of_fmap in Hin as (k & Hk & Hin).
      apply elem_of_seq in Hin. lia. }
  unfold serverCodec.ReadRequestHeader.
  destruct (recvFrame _) as [[data [e|]] r1]; simpl; [done|].
  destruct (Unmarshal requestCoding _ data) as [[e|] h]; simpl; [done|].
  rewrite uint64_small by lia.
  intros [= <- <-] Hseq. simpl in *.
  split; [done|]. split; [done|].
  pose proof (WriteResponse_found
                (serverCodec.mk r1 (serverCodec.writer s) h (serverCodec.serializer s)
                   (serverCodec.seq s + 1)
                   (<[serverCodec.seq s + 1 :=
                        serverCodec.mkReqCtx (RequestHeader.ID h)
                          (RequestHeader.GetCompressType h)]> (serverCodec.pending s)))
                response param
                (serverCodec.mkReqCtx (RequestHeader.ID h) (RequestHeader.GetCompressType h)))
    as H.
  simpl in H. rewrite Hseq, lookup_insert_eq in H. specialize (H eq_refl).
  destruct (WriteResponse' _ response param) as [err s2].
  destruct H as (_ & Hdel & _). simpl. rewrite Hdel. by apply delete_insert_id.
Qed.

(** X14.  The order of the checks of [ReadRequestBody] with a non-nil
    target.  It returns [UnexpectedChecksumError] exactly when the body was
    received and a nonzero checksum differs from its CRC-32, and
    [NotFoundCompressorError] exactly when the body was received, the
    checksum is zero or matches, and the compress type of the header is not
    registered: a corrupt body is reported as such even under an unknown
    compress type. *)
Theorem read_request_body_checks (s : serverCodec.t (V:=V)) (target : V) :
  let err := fst (fst (ReadRequestBody' s (Some target))) in
  let sum := RequestHeader.Checksum (serverCodec.request s) in
  (err = Some UnexpectedChecksumError ↔
   ∃ reqBody r,
     read (serverCodec.reader s) (serverCodec.reqBuffer s) = (None, reqBody, r) ∧
     sum ≠ 0 ∧ ChecksumIEEE reqBody ≠ sum) ∧
  (err = Some NotFoundCompressorError ↔
   ∃ reqBody r,
     read (serverCodec.reader s) (serverCodec.reqBuffer s) = (None, reqBody, r) ∧
     (sum = 0 ∨ ChecksumIEEE reqBody = sum) ∧
     Compressors !! RequestHeader.GetCompressType (serverCodec.request s) = None).
Proof.
  unfold serverCodec.ReadRequestBody.
  destruct (read _ _) as [[err reqBody] r] eqn:Hread. simpl.
  destruct err as [e|]; simpl.
  - apply read_error in Hread as (e0 & -> & _).
    split; (split; [done|intros (? & ? & ? & _); done]).
  - destruct (negb _ && negb _) eqn:Hsum; simpl.
    + apply andb_true_iff in Hsum as [Hz Hs].
      apply negb_true_iff in Hz, Hs. apply N.eqb_neq in Hz, Hs.
      split; split; try done.
      * intros _. eauto 6.
      * intros (b & r0 & [= <- <-] & [?|?] & _); done.
    + assert (Hpass : RequestHeader.Checksum (serverCodec.request s) = 0 ∨
                      ChecksumIEEE reqBody = RequestHeader.Checksum (serverCodec.request s)).
      { apply andb_false_iff in Hsum as [H|H]; apply negb_false_iff, N.eqb_eq in H; eauto. }
      split.
      * split.
        -- destruct (Compressors !! _) as [comp|]; simpl; [|done].
           destruct (Unzip comp reqBody); simpl; [|done].
           by destruct (Serializer.Unmarshal _ _ _).
        -- intros (b & r0 & [= <- <-] & ? & ?). by destruct Hpass.
      * destruct (Compressors !! _) as [comp|] eqn:Hc; simpl.
        -- split; [|intros (? & ? & _ & _ & ?); done].
           destruct (Unzip comp reqBody); simpl; [|done].
           by destruct (Serializer.Unmarshal _ _ _).
        -- split; [intros _; eauto 6|done].
Qed.

End ServerCodecMore.

Lemma write_response_once_witness :
  let s' := snd (serverCodec.WriteResponse Fixture.Compressors Fixture.responseCoding
                   (Fixture.at_request 0 999)
                   (Response.mk "Arith.Multiply" 1 EmptyString) (Some [x2a])) in
  serverCodec.pending s' !! 1 = None ∧
  fst (serverCodec.WriteResponse Fixture.Compressors Fixture.responseCoding s'
         (Response.mk "Arith.Multiply" 1 "again") None)
    = Some InvalidSequenceError.
Proof.
  apply (write_response_once Fixture.Compressors Fixture.responseCoding
           (Fixture.at_request 0 999)
           (Response.mk "Arith.Multiply" 1 EmptyString)
           (Response.mk "Arith.Multiply" 1 "again")
           (Some [x2a]) None (serverCodec.mkReqCtx 7 999)).
  - vm_compute. reflexivity.
  - reflexivity.
Defined.

Lemma server_pending_restored_witness :
  let s := snd (serverCodec.run Fixture.Compressors Fixture.requestCoding
                  Fixture.responseCoding
                  (Fixture.listening (Fixture.call_bytes (ChecksumIEEE [x2a]) 0
                                        ++ Fixture.call_bytes 0 1))
                  (take 3 Fixture.two_calls)) in
  let res := serverCodec.ReadRequestHeader Fixture.requestCoding s
               (Request.mk EmptyString 0) in
  Request.Seq (snd (fst res)) = serverCodec.seq s + 1 ∧
  serverCodec.pending s !! Request.Seq (snd (fst res)) = None ∧
  serverCodec.pending
    (snd (serverCodec.WriteResponse Fixture.Compressors Fixture.responseCoding
            (snd res) (Response.mk "Arith.Multiply" 2 EmptyString) (Some [x2a])))
    = serverCodec.pending s.
Proof.
  apply (server_pending_restored Fixture.Compressors Fixture.requestCoding
           Fixture.responseCoding
           (Fixture.source (Fixture.call_bytes (ChecksumIEEE [x2a]) 0
                              ++ Fixture.call_bytes 0 1))
           Fixture.sink Fixture.Bytes (take 3 Fixture.two_calls)
           (Request.mk EmptyString 0)).
  - vm_compute. reflexivity.
  - vm_compute. reflexivity.
  - vm_compute. reflexivity.
Defined.

(** ** From one endpoint to the other *)

Section EndToEnd.
Context {V : Type}.
Variable Compressors : gmap N Compressor.
Variable requestCoding : HeaderCoding RequestHeader.t.
Variable responseCoding : HeaderCoding ResponseHeader.t.

(** The stream of the receiver holds what the sender's call put on the
    wire, followed by [rest]. *)
Lemma wire_inv (before after wire unread rest : list byte) :
  after = before ++ wire → before ++ unread = after ++ rest →
  unread = wire ++ rest.
Proof.
  intros -> H. rewrite <- app_assoc in H. by apply app_inv_head in H.
Qed.

(** A body of [len] bytes at the front of an error-free stream is read
    whole. *)
Lemma read_body_ok (r : Reader) (cbody rest : list byte) :
  error_free r → unread r = cbody ++ rest →
  ∃ r', read r (repeat x00 (N.to_nat (N.of_nat (length cbody)))) = (None, cbody, r') ∧
        unread r' = rest ∧ error_free r'.
Proof.
  intros Hf Hu.
  destruct (read_supplied r (repeat x00 (N.to_nat (N.of_nat (length cbody)))))
    as (r' & Hrd & Hu' & _).
  - by apply error_free_net_errors_only.
  - rewrite repeat_length, Nat2N.id, Hu, length_app. lia.
  - rewrite repeat_length, Nat2N.id, Hu in *.
    rewrite take_app_length in Hrd. rewrite drop_app_length in Hu'.
    exists r'. split; [done|]. split; [done|]. by eapply read_error_free.
Qed.

Lemma checksum_passes (cbody : list byte) :
  negb (ChecksumIEEE cbody =? 0) && negb (ChecksumIEEE cbody =? ChecksumIEEE cbody)
  = false.
Proof. rewrite N.eqb_refl. apply andb_false_r. Qed.

(** X15.  Request delivery.  When [WriteRequest] has returned nil on a
    writer that keeps the [io.Writer] contract, with a compressor that
    unzips this body to what it zipped, a header coding that decodes this
    header to itself and a compressed body under 2^32 bytes, a server whose
    error-free stream holds the bytes written reads the header with nil,
    reports the method of the request under its next sequence number,
    remembers the client's id and compress type under that number, and its
    body read hands the marshalled argument to its own serializer, leaving
    the stream at the byte after the request. *)
Theorem request_delivery
    (c c' : clientCodec.t (V:=V)) (r : Request.t) (param : V)
    (comp : Compressor) (reqBody compressedReqBody : list byte)
    (s : serverCodec.t (V:=V)) (req : Request.t) (target : V) (rest : list byte) :
  let h := RequestHeader.mk (Request.Seq r) (Request.ServiceMethod r)
             (uint32 (N.of_nat (length compressedReqBody)))
             (clientCodec.compressor c) (ChecksumIEEE compressedReqBody) in
  compliant (clientCodec.writer c) →
  clientCodec.WriteRequest Compressors requestCoding c r param = (None, c') →
  Compressors !! clientCodec.compressor c = Some comp →
  Serializer.Marshal (clientCodec.serializer c) param = inl reqBody →
  Zip comp reqBody = inl compressedReqBody →
  Unzip comp compressedReqBody = inl reqBody →
  N.of_nat (length compressedReqBody) < 2 ^ 32 →
  N.of_nat (length (Marshal requestCoding h)) ≤ MaxInt →
  Unmarshal requestCoding RequestHeader.zero (Marshal requestCoding h) = (None, h) →
  error_free (serverCodec.reader s) →
  written (clientCodec.writer c) ++ unread (serverCodec.reader s)
    = written (clientCodec.writer c') ++ rest →
  let '(err1, req', s1) := serverCodec.ReadRequestHeader requestCoding s req in
  let '(err2, v, s2) := serverCodec.ReadRequestBody Compressors s1 (Some target) in
  err1 = None ∧
  req' = Request.mk (Request.ServiceMethod r) (uint64 (serverCodec.seq s + 1)) ∧
  serverCodec.pending s1 !! uint64 (serverCodec.seq s + 1)
    = Some (serverCodec.mkReqCtx (Request.Seq r) (clientCodec.compressor c)) ∧
  (err2, v) = match Serializer.Unmarshal (serverCodec.serializer s) reqBody target with
              | inl v => (None, Some v)
              | inr e => (Some (SerializeError e), Some target)
              end ∧
  unread (serverCodec.reader s2) = rest.
Proof.
  intros h Hc Hw Hcomp Hm Hzip Hunzip Hlen Hhlen Hcoding Hf Hwire.
  (* what the client wrote *)
  assert (Hwritten : written (clientCodec.writer c') =
                     written (clientCodec.writer c) ++
                       (frame (Marshal requestCoding h) ++ compressedReqBody)).
  { revert Hw. unfold clientCodec.WriteRequest. simpl. rewrite Hcomp, Hm, Hzip.
    fold h.
    destruct (sendFrame _ _) as [[e|] w1] eqn:Hsend; [done|].
    apply sendFrame_written in Hsend as [Hw1 Hc1]; [|done].
    destruct (write w1 compressedReqBody) as [[e|] w2] eqn:Hwrite; [done|].
    apply write_written in Hwrite as [Hw2 _]; [|done].
    intros [= <-]. simpl in *. by rewrite Hw2, Hw1, <- app_assoc. }
  pose proof (wire_inv _ _ _ _ _ Hwritten Hwire) as Hu.
  rewrite <- app_assoc in Hu.
  (* the header *)
  destruct (recvFrame_frame (Marshal requestCoding h) (serverCodec.reader s)
              (compressedReqBody ++ rest) Hhlen Hf Hu) as (r1 & Hrecv & Hu1).
  pose proof (recvFrame_error_free _ Hf) as Hf1. rewrite Hrecv in Hf1. simpl in Hf1.
  unfold serverCodec.ReadRequestHeader. simpl. rewrite Hrecv. simpl.
  unfold RequestHeader.ResetHeader. rewrite Hcoding. simpl.
  (* the body *)
  unfold serverCodec.ReadRequestBody, serverCodec.reqBuffer. simpl.
  unfold uint32 at 1. rewrite (N.mod_small _ _ Hlen).
  destruct (read_body_ok r1 compressedReqBody rest Hf1 Hu1) as (r2 & Hrd & Hu2 & _).
  rewrite Hrd. simpl. rewrite checksum_passes.
  unfold RequestHeader.GetCompressType. simpl. rewrite Hcomp, Hunzip.
  rewrite lookup_insert_eq.
  destruct (Serializer.Unmarshal _ reqBody target); simpl; done.
Qed.

End EndToEnd.

Lemma request_delivery_witness :
  let c := Fixture.caller [] in
  let s := Fixture.listening Fixture.multiply_wire in
  let '(err1, req', s1) :=
    serverCodec.ReadRequestHeader Fixture.requestCoding s (Request.mk EmptyString 0) in
  let '(err2, v, s2) :=
    serverCodec.ReadRequestBody Fixture.Compressors s1 (Some []) in
  err1 = None ∧
  req' = Request.mk "Arith.Multiply" (uint64 (serverCodec.seq s + 1)) ∧
  serverCodec.pending s1 !! uint64 (serverCodec.seq s + 1)
    = Some (serverCodec.mkReqCtx 7 (clientCodec.compressor c)) ∧
  (err2, v) = match Serializer.Unmarshal (serverCodec.serializer s) [x07; x06] [] with
              | inl v => (None, Some v)
              | inr e => (Some (SerializeError e), Some [])
              end ∧
  unread (serverCodec.reader s2) = [].
Proof.
  apply (request_delivery Fixture.Compressors Fixture.requestCoding
           (Fixture.caller [])
           (snd (clientCodec.WriteRequest Fixture.Compressors Fixture.requestCoding
                   (Fixture.caller []) Fixture.multiply [x07; x06]))
           Fixture.multiply [x07; x06] Fixture.Framed [x07; x06]
           [x1f; x8b; x07; x06]
           (Fixture.listening Fixture.multiply_wire)
           (Request.mk EmptyString 0) [] []).
  - constructor.
  - vm_compute. reflexivity.
  - vm_compute. reflexivity.
  - reflexivity.
  - reflexivity.
  - reflexivity.
  - vm_compute. reflexivity.
  - vm_compute. discriminate.
  - vm_compute. reflexivity.
  - constructor.
  - vm_compute. reflexivity.
Defined.

Section EndToEndResponse.
Context {V : Type}.
Variable Compressors : gmap N Compressor.
Variable requestCoding : HeaderCoding RequestHeader.t.
Variable responseCoding : HeaderCoding ResponseHeader.t.

(** X16.  Response delivery.  When [WriteResponse] has returned nil for a
    reply without error that carries a value, on a writer that keeps the
    [io.Writer] contract, with a compressor that unzips this body to what it
    zipped, a header coding that decodes this header to itself and a
    compressed body under 2^32 bytes, a client configured with the compress
    type of the request, whose error-free stream holds the bytes written and
    whose pending map has the request's id, reads the header with nil,
    reports that id with the method it had filed under it and takes the entry
    out, and its body read hands the marshalled value to its own serializer,
    leaving the stream at the byte after the response. *)
Theorem response_delivery
    (s s' : serverCodec.t (V:=V)) (response : Response.t) (value : V)
    (ctx : serverCodec.reqCtx)
    (comp : Compressor) (respBody compressedRespBody : list byte)
    (c : clientCodec.t (V:=V)) (resp : Response.t) (target : V)
    (method : string) (rest : list byte) :
  let h := serverCodec.responseHeader ctx response compressedRespBody in
  compliant (serverCodec.writer s) →
  serverCodec.pending s !! Response.Seq response = Some ctx →
  Response.Error response = EmptyString →
  serverCodec.WriteResponse Compressors responseCoding s response (Some value)
    = (None, s') →
  Compressors !! serverCodec.compressType ctx = Some comp →
  Serializer.Marshal (serverCodec.serializer s) value = inl respBody →
  Zip comp respBody = inl compressedRespBody →
  Unzip comp compressedRespBody = inl respBody →
  N.of_nat (length compressedRespBody) < 2 ^ 32 →
  N.of_nat (length (Marshal responseCoding h)) ≤ MaxInt →
  Unmarshal responseCoding ResponseHeader.zero (Marshal responseCoding h) = (None, h) →
  error_free (clientCodec.reader c) →
  written (serverCodec.writer s) ++ unread (clientCodec.reader c)
    = written (serverCodec.writer s') ++ rest →
  clientCodec.compressor c = serverCodec.compressType ctx →
  clientCodec.pending c !! serverCodec.requestId ctx = Some method →
  let '(err1, resp', c1) := clientCodec.ReadResponseHeader responseCoding c resp in
  let '(err2, v, c2) := clientCodec.ReadResponseBody Compressors c1 (Some target) in
  err1 = None ∧
  resp' = Response.mk method (serverCodec.requestId ctx) EmptyString ∧
  clientCodec.pending c1 = delete (serverCodec.requestId ctx) (clientCodec.pending c) ∧
  (err2, v) = match Serializer.Unmarshal (clientCodec.serializer c) respBody target with
              | inl v => (None, Some v)
              | inr e => (Some (SerializeError e), Some target)
              end ∧
  unread (clientCodec.reader c2) = rest.
Proof.
  intros h Hc Hp Herr Hw Hcomp Hm Hzip Hunzip Hlen Hhlen Hcoding Hf Hwire Hct Hpc.
  (* what the server wrote *)
  assert (Hwritten : written (serverCodec.writer s') =
                     written (serverCodec.writer s) ++
                       (frame (Marshal responseCoding h) ++ compressedRespBody)).
  { revert Hw. unfold serverCodec.WriteResponse. rewrite Hp, Herr. simpl.
    rewrite Hcomp, Hm, Hzip. fold h.
    destruct (sendFrame _ _) as [[e|] w1] eqn:Hsend; [done|].
    apply sendFrame_written in Hsend as [Hw1 Hc1]; [|done].
    destruct (write w1 compressedRespBody) as [[e|] w2] eqn:Hwrite; [done|].
    apply write_written in Hwrite as [Hw2 _]; [|done].
    intros [= <-]. simpl in *. by rewrite Hw2, Hw1, <- app_assoc. }
  pose proof (wire_inv _ _ _ _ _ Hwritten Hwire) as Hu.
  rewrite <- app_assoc in Hu.
  (* the header *)
  destruct (recvFrame_frame (Marshal responseCoding h) (clientCodec.reader c)
              (compressedRespBody ++ rest) Hhlen Hf Hu) as (r1 & Hrecv & Hu1).
  pose proof (recvFrame_error_free _ Hf) as Hf1. rewrite Hrecv in Hf1. simpl in Hf1.
  unfold clientCodec.ReadResponseHeader. simpl. rewrite Hrecv. simpl.
  unfold ResponseHeader.ResetHeader. rewrite Hcoding. simpl.
  rewrite Hpc, Herr. simpl.
  (* the body *)
  unfold clientCodec.ReadResponseBody, clientCodec.respBuffer. simpl.
  unfold uint32 at 1. rewrite (N.mod_small _ _ Hlen).
  destruct (read_body_ok r1 compressedRespBody rest Hf1 Hu1) as (r2 & Hrd & Hu2 & _).
  rewrite Hrd. simpl. rewrite checksum_passes.
  unfold ResponseHeader.GetCompressType. simpl.
  rewrite Hct, N.eqb_refl. simpl. rewrite Hcomp, Hunzip.
  destruct (Serializer.Unmarshal _ respBody target); simpl; done.
Qed.

End EndToEndResponse.

Lemma response_delivery_witness :
  let s := Fixture.at_request 0 1 in
  let response := Response.mk "Arith.Multiply" 1 EmptyString in
  let s' := snd (serverCodec.WriteResponse Fixture.Compressors Fixture.responseCoding
                   s response (Some [x2a])) in
  let c := snd (clientCodec.WriteRequest Fixture.Compressors Fixture.requestCoding
                  (Fixture.caller (written (serverCodec.writer s')))
                  Fixture.multiply [x07; x06]) in
  let '(err1, resp', c1) :=
    clientCodec.ReadResponseHeader Fixture.responseCoding c
      (Response.mk EmptyString 0 EmptyString) in
  let '(err2, v, c2) :=
    clientCodec.ReadResponseBody Fixture.Compressors c1 (Some []) in
  err1 = None ∧
  resp' = Response.mk "Arith.Multiply" 7 EmptyString ∧
  clientCodec.pending c1 = delete 7 (clientCodec.pending c) ∧
  (err2, v) = match Serializer.Unmarshal (clientCodec.serializer c) [x2a] [] with
              | inl v => (None, Some v)
              | inr e => (Some (SerializeError e), Some [])
              end ∧
  unread (clientCodec.reader c2) = [].
Proof.
  apply (response_delivery Fixture.Compressors Fixture.responseCoding
           (Fixture.at_request 0 1)
           (snd (serverCodec.WriteResponse Fixture.Compressors Fixture.responseCoding
                   (Fixture.at_request 0 1)
                   (Response.mk "Arith.Multiply" 1 EmptyString) (Some [x2a])))
           (Response.mk "Arith.Multiply" 1 EmptyString) [x2a]
           (serverCodec.mkReqCtx 7 1)
           Fixture.Framed [x2a] [x1f; x8b; x2a]
           (snd (clientCodec.WriteRequest Fixture.Compressors Fixture.requestCoding
                   (Fixture.caller
                      (written (serverCodec.writer
                         (snd (serverCodec.WriteResponse Fixture.Compressors
                                 Fixture.responseCoding (Fixture.at_request 0 1)
                                 (Response.mk "Arith.Multiply" 1 EmptyString)
                                 (Some [x2a]))))))
                   Fixture.multiply [x07; x06]))
           (Response.mk EmptyString 0 EmptyString) [] "Arith.Multiply"%string []).
  - vm_compute. constructor.
  - vm_compute. reflexivity.
  - reflexivity.
  - vm_compute. reflexivity.
  - vm_compute. reflexivity.
  - reflexivity.
  - reflexivity.
  - reflexivity.
  - vm_compute. reflexivity.
  - vm_compute. discriminate.
  - vm_compute. reflexivity.
  - vm_compute. constructor.
  - vm_compute. reflexivity.
  - vm_compute. reflexivity.
  - vm_compute. reflexivity.
Defined.

Section ClientExchange.
Context {V : Type}.
Variable Compressors : gmap N Compressor.
Variable requestCoding : HeaderCoding RequestHeader.t.
Variable responseCoding : HeaderCoding ResponseHeader.t.

(** X17.  Pending integrity on the client.  A [WriteRequest] with a
    sequence number that is not pending, whatever it returns, followed by a
    [ReadResponseHeader] that decodes a header with that number as id, puts
    the pending map back as it was before the request. *)
Theorem client_pending_restored
    (c : clientCodec.t (V:=V)) (r : Request.t) (param : V) (resp : Response.t)
    (data : list byte) (rd : Reader) (h : ResponseHeader.t) :
  clientCodec.pending c !! Request.Seq r = None →
  let c1 := snd (clientCodec.WriteRequest Compressors requestCoding c r param) in
  recvFrame (clientCodec.reader c1) = (data, None, rd) →
  Unmarshal responseCoding ResponseHeader.zero data = (None, h) →
  ResponseHeader.ID h = Request.Seq r →
  clientCodec.reader c1 = clientCodec.reader c ∧
  clientCodec.pending (snd (clientCodec.ReadResponseHeader responseCoding c1 resp))
    = clientCodec.pending c.
Proof.
  intros Hfresh c1. subst c1.
  pose proof (WriteRequest_state Compressors requestCoding c r param) as H.
  destruct (clientCodec.WriteRequest _ _ c r param) as [err c1].
  destruct H as (Hp & Hr & _). simpl.
  intros Hrecv Hun Hid. split; [done|].
  unfold clientCodec.ReadResponseHeader. simpl.
  rewrite Hrecv. simpl. unfold ResponseHeader.ResetHeader. rewrite Hun. simpl.
  rewrite Hid, Hp. by apply delete_insert_id.
Qed.

End ClientExchange.

Lemma client_pending_restored_witness :
  let c1 := snd (clientCodec.WriteRequest Fixture.Compressors Fixture.requestCoding
                   (Fixture.idle 0 0) Fixture.multiply [x07; x06]) in
  clientCodec.reader c1 = clientCodec.reader (Fixture.idle 0 0) ∧
  clientCodec.pending
    (snd (clientCodec.ReadResponseHeader Fixture.responseCoding c1
            (Response.mk EmptyString 0 EmptyString)))
    = clientCodec.pending (Fixture.idle 0 0).
Proof.
  apply (client_pending_restored Fixture.Compressors Fixture.requestCoding
           Fixture.responseCoding (Fixture.idle 0 0) Fixture.multiply [x07; x06]
           (Response.mk EmptyString 0 EmptyString)
           (Marshal Fixture.responseCoding (ResponseHeader.mk 7 EmptyString 1 0 0))
           (Fixture.source [x2a])
           (ResponseHeader.mk 7 EmptyString 1 0 0)).
  - vm_compute. reflexivity.
  - vm_compute. reflexivity.
  - vm_compute. reflexivity.
  - reflexivity.
Defined.
